(** * Clarke-Wright savings routing

    A shallow embedding of [clarkeWrightAlgorithm] and [calculateDistance]
    of the optimization controller, and of the choice of the depot in
    [createOptimization], their caller.

    Numbers.  Latitudes, longitudes and distances are JavaScript Numbers,
    that is IEEE-754 binary64 values: they are Rocq's primitive [float]s,
    whose [+ - * /], [sqrt] and comparisons are the same operations.  The
    functions [Math.sin], [Math.cos] and [Math.atan2] are left to the
    JavaScript engine by ECMAScript; they are the fields of the class
    [Engine], and every result below holds for every engine unless it
    says what it asks of the engine.  Demands, capacities, remaining
    capacities and the [totalCapacity] of a route are Numbers as well
    (the schemas declare them [Number]): they are [float]s, added with the
    binary64 [+] and compared with the binary64 [<], as the source does.
    A vehicle count bounds a [for] loop over integers: it is in [Z].

    Identifiers.  A Mongo [_id] is only ever used through [toString()], as
    a string to compare or as an object key: it is a [string].

    State.  The arrays [routes] and [availableVehicles] and the counter
    [vehicleIndex] are mutated by the callbacks of two [forEach] loops; each
    callback is a function from state to state and each loop a [fold_left]. *)

From Stdlib Require Import ZArith Floats Permutation Sorted Lia.
From stdpp Require Import base option list gmap strings.

Local Open Scope Z_scope.

(** * The program *)

(** ** Data model *)

Module Location.
Record t := mk {
  _id : string;
  name : string;
  latitude : float;
  longitude : float;
  demand : float;
  isDepot : bool
}.
End Location.

Module Vehicle.
Record t := mk {
  _id : string;
  name : string;
  capacity : float;
  count : Z
}.
End Vehicle.

(** One element of [availableVehicles]: the spread of a vehicle document
    plus its own [remainingCapacity]. *)
Module Instance.
Record t := mk {
  vehicle : Vehicle.t;
  remainingCapacity : float
}.
Definition _id (v : t) : string := Vehicle._id (vehicle v).
Definition name (v : t) : string := Vehicle.name (vehicle v).
Definition capacity (v : t) : float := Vehicle.capacity (vehicle v).
End Instance.

Module Stop.
Record t := mk {
  locationId : string;
  locationName : string;
  latitude : float;
  longitude : float;
  demand : float;
  order : nat
}.
Definition with_order (s : t) (o : nat) : t :=
  mk (locationId s) (locationName s) (latitude s) (longitude s) (demand s) o.
End Stop.

Module Route.
Record t := mk {
  vehicleId : string;
  vehicleName : string;
  stops : list Stop.t;
  totalDistance : float;
  totalCapacity : float
}.
End Route.

(** One element of the [savings] array. *)
Module Saving.
Record t := mk {
  loc1 : Location.t;
  loc2 : Location.t;
  saving : float
}.
End Saving.

(** ** The engine's Math library *)

Class Engine := {
  Math_sin : float → float;
  Math_cos : float → float;
  Math_atan2 : float → float → float
}.

(** [Math.PI] is the double nearest to pi. *)
Definition Math_PI : float := 0x1.921fb54442d18p+1%float.

(** ** Distance model: [calculateDistance] (Haversine) *)

Section Haversine.
Context `{Engine}.
Local Open Scope float_scope.

Definition calculateDistance (lat1 lon1 lat2 lon2 : float) : float :=
  let R := 6371 in
  let dLat := (lat2 - lat1) * Math_PI / 180 in
  let dLon := (lon2 - lon1) * Math_PI / 180 in
  let a :=
    Math_sin (dLat / 2) * Math_sin (dLat / 2) +
    Math_cos (lat1 * Math_PI / 180) * Math_cos (lat2 * Math_PI / 180) *
    Math_sin (dLon / 2) * Math_sin (dLon / 2) in
  let c := 2 * Math_atan2 (sqrt a) (sqrt (1 - a)) in
  let distance := R * c in
  distance.

End Haversine.

(** ** The distance table

    [distances[loc1._id][loc2._id] = calculateDistance(...)], an object of
    objects keyed by the identifiers; a later location with the same
    identifier overwrites an earlier one. *)

Section DistanceTable.
Context `{Engine}.

Definition distanceRow (locations : list Location.t) (loc1 : Location.t)
  : gmap string float :=
  fold_left (λ row loc2,
      <[Location._id loc2 :=
          calculateDistance (Location.latitude loc1) (Location.longitude loc1)
                            (Location.latitude loc2) (Location.longitude loc2)]> row)
    locations ∅.

Definition distanceTable (locations : list Location.t)
  : gmap string (gmap string float) :=
  fold_left (λ distances loc1,
      <[Location._id loc1 := distanceRow locations loc1]> distances)
    locations ∅.

End DistanceTable.

(** [distances[a][b]].  A missing inner key reads [undefined], which is NaN
    in the arithmetic that follows.  A missing outer key would be a
    TypeError; every outer key the algorithm uses is the identifier of the
    depot or of a location, and [createOptimization] takes the depot from
    [locations] ([selectDepot_elem]), so every key is there
    ([lookupDistance_Some]). *)
Definition lookupDistance (distances : gmap string (gmap string float))
  (a b : string) : float :=
  match distances !! a with
  | Some row => default nan (row !! b)
  | None => nan
  end.

(** ** Savings calculator *)

Definition isDepotId (depot loc : Location.t) : bool :=
  bool_decide (Location._id loc = Location._id depot).

(** The inner [locations.forEach(loc2 => ...)] for one [loc1]. *)
Definition savingsFor (distances : gmap string (gmap string float))
  (locations : list Location.t) (depot loc1 : Location.t) : list Saving.t :=
  flat_map (λ loc2,
      if isDepotId depot loc2
         || bool_decide (Location._id loc1 = Location._id loc2)
      then []
      else
        let saving :=
          (lookupDistance distances (Location._id depot) (Location._id loc1) +
           lookupDistance distances (Location._id depot) (Location._id loc2) -
           lookupDistance distances (Location._id loc1) (Location._id loc2))%float in
        [Saving.mk loc1 loc2 saving])
    locations.

Definition computeSavings (distances : gmap string (gmap string float))
  (locations : list Location.t) (depot : Location.t) : list Saving.t :=
  flat_map (λ loc1,
      if isDepotId depot loc1 then []
      else savingsFor distances locations depot loc1)
    locations.

(** [savings.sort((a, b) => b.saving - a.saving)].  [Array.prototype.sort]
    is stable (ES2019); [b] is moved in front of [a] exactly when the
    comparator is positive, a NaN comparator counting as zero.  A stable
    insertion sort with that test is the model.  When no saving is NaN
    the comparator is a consistent one and the stable order is the order
    every engine returns.  With a NaN saving the comparator is not
    consistent and ECMAScript leaves the order to the engine: the
    definition then gives one of the permutations an engine may return,
    and nothing below states more of the order in that case than that it
    is a permutation. *)
Definition comparatorPositive (a b : Saving.t) : bool :=
  (0 <? Saving.saving b - Saving.saving a)%float.

Fixpoint insertSaving (a : Saving.t) (l : list Saving.t) : list Saving.t :=
  match l with
  | [] => [a]
  | b :: l' => if comparatorPositive a b then b :: insertSaving a l' else a :: l
  end.

Definition sortSavings (l : list Saving.t) : list Saving.t :=
  foldr insertSaving [] l.

(** ** Fleet allocator *)

Definition expandVehicles (vehicles : list Vehicle.t) : list Instance.t :=
  flat_map (λ vehicle,
      replicate (Z.to_nat (Vehicle.count vehicle))
                (Instance.mk vehicle (Vehicle.capacity vehicle)))
    vehicles.

(** ** Route builder *)

Definition depotStop (depot : Location.t) (order : nat) : Stop.t :=
  Stop.mk (Location._id depot) (Location.name depot)
          (Location.latitude depot) (Location.longitude depot)
          (Location.demand depot) order.

Definition locationStop (location : Location.t) (order : nat) : Stop.t :=
  Stop.mk (Location._id location) (Location.name location)
          (Location.latitude location) (Location.longitude location)
          (Location.demand location) order.

(** The variables the [nonDepotLocations.forEach] callback closes over. *)
Record BuildState := mkBuild {
  routes : list Route.t;
  availableVehicles : list Instance.t;
  vehicleIndex : nat
}.

Definition initialRoute (distances : gmap string (gmap string float))
  (depot location : Location.t) (vehicle : Instance.t) : Route.t :=
  Route.mk (Instance._id vehicle) (Instance.name vehicle)
    [depotStop depot 0; locationStop location 1; depotStop depot 2]
    (lookupDistance distances (Location._id depot) (Location._id location) * 2)%float
    (Location.demand location).

(** One call of the callback.  [availableVehicles !! vehicleIndex = None] is
    the guard [vehicleIndex >= availableVehicles.length];
    [location.demand > vehicle.remainingCapacity] is the binary64
    comparison, false when either side is NaN. *)
Definition buildStep (distances : gmap string (gmap string float))
  (depot : Location.t) (st : BuildState) (location : Location.t) : BuildState :=
  match availableVehicles st !! vehicleIndex st with
  | None => st
  | Some vehicle =>
      if (Instance.remainingCapacity vehicle <? Location.demand location)%float
      then st
      else
        mkBuild
          (routes st ++ [initialRoute distances depot location vehicle])
          (<[vehicleIndex st :=
               Instance.mk (Instance.vehicle vehicle)
                 (Instance.remainingCapacity vehicle - Location.demand location)%float]>
             (availableVehicles st))
          (S (vehicleIndex st))
  end.

Definition buildRoutes (distances : gmap string (gmap string float))
  (depot : Location.t) (nonDepotLocations : list Location.t)
  (pool : list Instance.t) : BuildState :=
  fold_left (buildStep distances depot) nonDepotLocations (mkBuild [] pool 0).

(** ** Route merger *)

(** [route.stops.some(stop => stop.locationId.toString() === id)] *)
Definition containsLoc (id : string) (route : Route.t) : bool :=
  existsb (λ stop, bool_decide (Stop.locationId stop = id)) (Route.stops route).

(** The scanning loop over [routes], from index [i] on, with the two
    results found so far; it stops as soon as both are set. *)
Fixpoint findRoutes (id1 id2 : string) (i : nat) (rs : list Route.t)
  (route1 route2 : option (nat * Route.t))
  : option (nat * Route.t) * option (nat * Route.t) :=
  match rs with
  | [] => (route1, route2)
  | route :: rs' =>
      let containsLoc1 := containsLoc id1 route in
      let containsLoc2 := containsLoc id2 route in
      let route1 :=
        if containsLoc1 && negb (bool_decide (is_Some route1))
        then Some (i, route) else route1 in
      let route2 :=
        if containsLoc2 && negb (bool_decide (is_Some route2))
        then Some (i, route) else route2 in
      if bool_decide (is_Some route1) && bool_decide (is_Some route2)
      then (route1, route2)
      else findRoutes id1 id2 (S i) rs' route1 route2
  end.

(** [stops.slice(1, -1)] *)
Definition sliceInner {A} (l : list A) : list A :=
  take (length l - 2)%nat (drop 1 l).

(** The stops a merge pushes, [order] counting up from 0. *)
Definition mergedStops (first : Stop.t) (stops1 stops2 : list Stop.t)
  : list Stop.t :=
  imap (λ order stop, Stop.with_order stop order)
       (first :: sliceInner stops1 ++ sliceInner stops2 ++ [first]).

(** [for (i = 0; i < newStops.length - 1; i++) totalDistance += distances[from][to]] *)
Definition pathDistance (distances : gmap string (gmap string float))
  (newStops : list Stop.t) : float :=
  fold_left (λ totalDistance leg,
      (totalDistance +
       lookupDistance distances (Stop.locationId leg.1) (Stop.locationId leg.2))%float)
    (zip newStops (tail newStops)) 0%float.

(** One call of the [savings.forEach] callback on the route list and the
    vehicle pool.  [route1.route.stops[0]] exists because every route of the
    list starts with the depot stop ([wfRoute], kept by [mergeAll_Forall]);
    the [[]] branch is never taken and is there to make the match total. *)
Definition mergeStep (distances : gmap string (gmap string float))
  (st : list Route.t * list Instance.t) (saving : Saving.t)
  : list Route.t * list Instance.t :=
  let '(routes, availableVehicles) := st in
  let loc1 := Saving.loc1 saving in
  let loc2 := Saving.loc2 saving in
  match findRoutes (Location._id loc1) (Location._id loc2) 0 routes None None with
  | (Some (index1, route1), Some (index2, route2)) =>
      if bool_decide (index1 = index2) then st
      else
        let totalDemand :=
          (Route.totalCapacity route1 + Route.totalCapacity route2)%float in
        match list_find (λ v, Instance._id v = Route.vehicleId route1) availableVehicles with
        | None => st
        | Some (k, vehicle) =>
            if (Instance.capacity vehicle <? totalDemand)%float then st
            else
              match Route.stops route1 with
              | [] => st
              | first :: _ =>
                  let newStops :=
                    mergedStops first (Route.stops route1) (Route.stops route2) in
                  let totalDistance := pathDistance distances newStops in
                  let mergedRoute :=
                    Route.mk (Route.vehicleId route1) (Route.vehicleName route1)
                             newStops totalDistance totalDemand in
                  let availableVehicles' :=
                    <[k := Instance.mk (Instance.vehicle vehicle)
                             (Instance.capacity vehicle - totalDemand)%float]>
                      availableVehicles in
                  let routes' :=
                    <[Nat.min index1 index2 := mergedRoute]>
                      (delete (Nat.max index1 index2) routes) in
                  (routes', availableVehicles')
              end
        end
  | _ => st
  end.

Definition nonDepot (depot : Location.t) (locations : list Location.t)
  : list Location.t :=
  filter (λ loc, Location._id loc ≠ Location._id depot) locations.

(** ** The algorithm and its caller *)

Section ClarkeWright.
Context `{Engine}.

Definition clarkeWrightAlgorithm (vehicles : list Vehicle.t)
  (locations : list Location.t) (depot : Location.t) : list Route.t :=
  let distances := distanceTable locations in
  let savings := sortSavings (computeSavings distances locations depot) in
  let nonDepotLocations := nonDepot depot locations in
  let built :=
    buildRoutes distances depot nonDepotLocations (expandVehicles vehicles) in
  (fold_left (mergeStep distances) savings
     (routes built, availableVehicles built)).1.

End ClarkeWright.

(** [locations.find(loc => loc.isDepot) || locations[0]], the depot that
    [createOptimization] hands to the algorithm: the first flagged
    location, else the first location.  The caller answers 400 before this
    line when [locations] is empty, so [None] is never passed on. *)
Definition selectDepot (locations : list Location.t) : option Location.t :=
  match List.find Location.isDepot locations with
  | Some depot => Some depot
  | None => head locations
  end.

(** * Specification vocabulary *)

(** ** Routes *)

(** The sums the code forms of a list of demands: one demand, or the
    binary64 sum of such sums of two consecutive parts of the list.  The
    [totalCapacity] of a route is one of them, bracketed the way the
    merges went. *)
Inductive demandSum : list float → float → Prop :=
  | demandSum_one d : demandSum [d] d
  | demandSum_add l1 l2 t1 t2 :
      demandSum l1 t1 → demandSum l2 t2 → demandSum (l1 ++ l2) (t1 + t2)%float.

(** The integer a double stands for, when it stands for one, and the sum
    in [Z] of a list of such doubles: what the demands add up to when no
    addition rounds. *)
Definition integerValue (x : float) : option Z :=
  match Prim2SF x with
  | S754_zero _ => Some 0
  | S754_finite s m e =>
      if 0 <=? e then Some (cond_Zopp s (Z.pos m * 2 ^ e))
      else if Z.pos m mod 2 ^ (- e) =? 0
           then Some (cond_Zopp s (Z.pos m / 2 ^ (- e)))
           else None
  | _ => None
  end.

Definition exactSum (l : list float) : option Z :=
  foldr (λ d acc, x ← integerValue d; t ← acc; Some (x + t)) (Some 0) l.

(** The demands of the stops of a route that are not the depot. *)
Definition routeDemands (depot : Location.t) (r : Route.t) : list float :=
  Stop.demand <$>
    filter (λ s, Stop.locationId s ≠ Location._id depot) (Route.stops r).

(** A stop that was made from a non-depot location whose demand is not
    greater than the capacity of some vehicle of the pool. *)
Definition routedStop (depot : Location.t) (locations : list Location.t)
  (fleet : list Vehicle.t) (s : Stop.t) : Prop :=
  Stop.locationId s ≠ Location._id depot ∧
  ∃ loc, loc ∈ locations ∧
         Stop.locationId s = Location._id loc ∧
         Stop.demand s = Location.demand loc ∧
         ∃ v, v ∈ fleet ∧
              (Vehicle.capacity v <? Location.demand loc)%float = false.

(** A well-formed route: the depot, routed stops, the depot; its
    [totalCapacity] is a sum of the demands of those stops and is not
    greater than the capacity of a vehicle of the fleet that has the
    route's [vehicleId]. *)
Definition wfRoute (depot : Location.t) (locations : list Location.t)
  (fleet : list Vehicle.t) (r : Route.t) : Prop :=
  ∃ first mid last,
    Route.stops r = first :: mid ++ [last] ∧
    Stop.locationId first = Location._id depot ∧
    Stop.locationId last = Location._id depot ∧
    Forall (routedStop depot locations fleet) mid ∧
    demandSum (Stop.demand <$> mid) (Route.totalCapacity r) ∧
    ∃ v, v ∈ fleet ∧ Vehicle._id v = Route.vehicleId r ∧
         (Vehicle.capacity v <? Route.totalCapacity r)%float = false.

(** The invariant of the route builder: the routes so far are well formed,
    the pool still holds the same vehicles, one route was made per cursor
    position, and the vehicles from the cursor on are untouched. *)
Definition buildInv (depot : Location.t) (locations : list Location.t)
  (pool0 : list Instance.t) (st : BuildState) : Prop :=
  Forall (wfRoute depot locations (Instance.vehicle <$> pool0)) (routes st) ∧
  Instance.vehicle <$> availableVehicles st = Instance.vehicle <$> pool0 ∧
  length (routes st) = vehicleIndex st ∧
  (vehicleIndex st ≤ length pool0)%nat ∧
  (∀ k, (vehicleIndex st ≤ k)%nat → availableVehicles st !! k = pool0 !! k).

(** The condition under which the route builder gives [location] a route. *)
Definition canAssign (st : BuildState) (location : Location.t) : Prop :=
  ∃ vehicle, availableVehicles st !! vehicleIndex st = Some vehicle ∧
             (Instance.remainingCapacity vehicle <? Location.demand location)%float
             = false.

(** The number of vehicles the vehicle types announce. *)
Definition sumCounts (vehicles : list Vehicle.t) : Z :=
  foldr Z.add 0 (Vehicle.count <$> vehicles).

(** The route a merge step puts where its two routes were. *)
Definition mergedRouteOf (distances : gmap string (gmap string float))
  (route1 route2 : Route.t) (first : Stop.t) : Route.t :=
  let newStops := mergedStops first (Route.stops route1) (Route.stops route2) in
  Route.mk (Route.vehicleId route1) (Route.vehicleName route1) newStops
    (pathDistance distances newStops)
    (Route.totalCapacity route1 + Route.totalCapacity route2).

(** A result of the scanning loop: what was found before, else what the
    rest of the scan finds, [i] routes further on. *)
Definition orFound (i : nat) (found : option (nat * Route.t))
  (rest : option (nat * Route.t)) : option (nat * Route.t) :=
  match found with
  | Some _ => found
  | None => prod_map (λ k, (i + k)%nat) id <$> rest
  end.

(** ** Savings *)

(** The saving of a pair as the source computes it from the table. *)
Definition tableSaving (distances : gmap string (gmap string float))
  (depot loc1 loc2 : Location.t) : float :=
  (lookupDistance distances (Location._id depot) (Location._id loc1) +
   lookupDistance distances (Location._id depot) (Location._id loc2) -
   lookupDistance distances (Location._id loc1) (Location._id loc2))%float.

(** The distance between two locations. *)
Definition distance `{Engine} (a b : Location.t) : float :=
  calculateDistance (Location.latitude a) (Location.longitude a)
                    (Location.latitude b) (Location.longitude b).

(** Entries of the savings list from [i] to [j], in that order. *)
Definition orderedCount (i j : Location.t) (savings : list Saving.t) : nat :=
  length (filter (λ e, Location._id (Saving.loc1 e) = Location._id i ∧
                       Location._id (Saving.loc2 e) = Location._id j) savings).

(** Entries of the savings list for the unordered pair of [i] and [j]. *)
Definition pairCount (i j : Location.t) (savings : list Saving.t) : nat :=
  length (filter (λ e, (Location._id (Saving.loc1 e) = Location._id i ∧
                        Location._id (Saving.loc2 e) = Location._id j) ∨
                       (Location._id (Saving.loc1 e) = Location._id j ∧
                        Location._id (Saving.loc2 e) = Location._id i)) savings).

(** Each entry's saving is at least the saving of the entry after it. *)
Definition nonIncreasing (savings : list Saving.t) : Prop :=
  Sorted (λ a b, (Saving.saving b <=? Saving.saving a)%float = true) savings.

(** The saving of an entry is not NaN. *)
Definition savingIsNumber (e : Saving.t) : Prop :=
  is_nan (Saving.saving e) = false.

(** ** Routed stops *)

(** The identifiers of the stops a route visits between its two depot
    stops, and those of a whole route list, in order. *)
Definition routedIds (r : Route.t) : list string :=
  Stop.locationId <$> sliceInner (Route.stops r).

Definition allRoutedIds (rs : list Route.t) : list string := rs ≫= routedIds.

(** The stops of a route that visits [locs]: the depot, the locations, the
    depot, numbered from 0. *)
Definition routeStops (depot : Location.t) (locs : list Location.t)
  : list Stop.t :=
  imap (λ order stop, Stop.with_order stop order)
       (depotStop depot 0 :: ((λ l, locationStop l 0) <$> locs) ++ [depotStop depot 0]).

(** A route that visits one or more non-depot locations of the input and
    carries a sum of their demands. *)
Definition visitsLocations (depot : Location.t) (locations : list Location.t)
  (r : Route.t) : Prop :=
  ∃ locs, locs ≠ [] ∧
          Forall (λ l, l ∈ locations ∧ Location._id l ≠ Location._id depot) locs ∧
          Route.stops r = routeStops depot locs ∧
          demandSum (Location.demand <$> locs) (Route.totalCapacity r).

(** The first route among [rs] that has a stop at [id] is [r], at index [i]. *)
Definition firstRouteWith (id : string) (rs : list Route.t) (i : nat)
  (r : Route.t) : Prop :=
  rs !! i = Some r ∧ containsLoc id r = true ∧
  ∀ j r', (j < i)%nat → rs !! j = Some r' → containsLoc id r' = false.

(** ** Rounding *)

(** A rounded result that carries the sign [s] and is not a zero. *)
Definition signedNonzero (s : bool) (x : spec_float) : Prop :=
  (∃ m e, x = S754_finite s m e) ∨ x = S754_infinity s.

(** Zero or above: a zero of either sign, a positive finite value or
    plus infinity. *)
Definition SFnonneg (x : spec_float) : Prop :=
  SFleb (S754_zero false) x = true.

(** [SFbelow k x]: [x] is a zero or a finite value of magnitude below
    [2 ^ k]. *)
Definition SFbelow (k : Z) (x : spec_float) : Prop :=
  match x with
  | S754_zero _ => True
  | S754_finite _ m e => Z.pos (digits2_pos m) + e ≤ k
  | _ => False
  end.

(** ** Test data: the scenarios of the specification *)

(** An engine to run the definitions with: the small-angle stand-ins
    [sin x = x], [cos x = 1], [atan2 y x = y / x]. *)
Definition testEngine : Engine :=
  {| Math_sin := λ x, x;
     Math_cos := λ _, 1%float;
     Math_atan2 := λ y x, (y / x)%float |}.

(** An engine whose [atan2] returns its first argument. *)
Definition identityEngine : Engine :=
  {| Math_sin := λ x, x;
     Math_cos := λ _, 1%float;
     Math_atan2 := λ y _, y |}.

Definition depot0 : Location.t := Location.mk "d"%string "Depot"%string 0 0 0 true.
Definition stopA : Location.t := Location.mk "a"%string "A"%string 0 1 5 false.
Definition stopB : Location.t := Location.mk "b"%string "B"%string 0 2 5 false.
Definition scenario : list Location.t := [depot0; stopA; stopB].
Definition van (capacity : float) (count : Z) : Vehicle.t :=
  Vehicle.mk "v"%string "Van"%string capacity count.
Definition stopC : Location.t := Location.mk "c"%string "C"%string 3 1 2 false.

(** Two antipodal points, (8, 0) and (-8, 180), and an engine for them:
    at the arguments these two points lead to, its [Math.sin] and
    [Math.cos] return the doubles nearest to the sine and the cosine,
    sin(0.1396...) = 0.1391..., cos(0.1396...) = 0.9902... and
    sin(pi/2) = 1; elsewhere it is [testEngine]. *)
Definition tableEngine : Engine :=
  {| Math_sin := λ x,
       if (x =? 0x1.1df46a2529d39p-3)%float then 0x1.1d06c968d9e19p-3%float
       else if (x =? -0x1.1df46a2529d39p-3)%float then (-0x1.1d06c968d9e19p-3)%float
       else if (x =? 0x1.921fb54442d18p+0)%float then 1%float
       else if (x =? -0x1.921fb54442d18p+0)%float then (-1)%float
       else x;
     Math_cos := λ x,
       if (abs x =? 0x1.1df46a2529d39p-3)%float then 0x1.fb046a930947ap-1%float
       else 1%float;
     Math_atan2 := λ y x, (y / x)%float |}.

Definition stopNorth : Location.t :=
  Location.mk "a"%string "A"%string 8 0 5 false.
Definition stopSouth : Location.t :=
  Location.mk "b"%string "B"%string (-8) 180 5 false.

(** Two stops whose demands, 2^53 and 1, have a sum that is not a double. *)
Definition stopHeavy : Location.t :=
  Location.mk "a"%string "A"%string 0 1 0x1p+53 false.
Definition stopUnit : Location.t :=
  Location.mk "b"%string "B"%string 0 2 1 false.

(** * IEEE-754 binary64 facts

    The primitive operations are specified in [FloatAxioms] by functions
    on [spec_float]; what follows are the facts about those functions
    that the sort comparator and the Haversine formula rely on. *)

Module Binary64.

(** ** Digits and shifts *)

Lemma digits2_size p : digits2_pos p = Pos.size p.
Proof. induction p; simpl; congruence. Qed.

Lemma digits2_bounds p :
  2 ^ (Z.pos (digits2_pos p) - 1) ≤ Z.pos p < 2 ^ Z.pos (digits2_pos p).
Proof.
  rewrite digits2_size. split.
  - pose proof (Pos.size_le p) as Hle.
    apply Pos2Z.pos_le_pos in Hle. rewrite Pos2Z.inj_pow in Hle.
    replace (Z.pos (Pos.size p)) with (Z.succ (Z.pos (Pos.size p) - 1)) in Hle by lia.
    rewrite Z.pow_succ_r in Hle by lia. lia.
  - pose proof (Pos.size_gt p) as Hgt.
    apply Pos2Z.pos_lt_pos in Hgt. by rewrite Pos2Z.inj_pow in Hgt.
Qed.

Lemma Zdigits2_le_pow m k :
  0 ≤ k → 0 ≤ m < 2 ^ k → Zdigits2 m ≤ k.
Proof.
  intros Hk [Hm Hlt]. destruct m as [|p|p]; simpl; [lia| |lia].
  destruct (digits2_bounds p) as [Hlo _].
  assert (2 ^ (Z.pos (digits2_pos p) - 1) < 2 ^ k) as Hpow by lia.
  apply Z.pow_lt_mono_r_iff in Hpow; lia.
Qed.

Lemma Zdigits2_succ m : 0 ≤ m → Zdigits2 (m + 1) ≤ Zdigits2 m + 1.
Proof.
  intros Hm. apply Zdigits2_le_pow; [destruct m; simpl; lia|].
  destruct m as [|p|p]; [simpl; lia| |lia].
  destruct (digits2_bounds p) as [_ Hhi].
  change (Zdigits2 (Z.pos p)) with (Z.pos (digits2_pos p)).
  rewrite Z.pow_add_r by lia. lia.
Qed.

Lemma Zdigits2_square p :
  Zdigits2 (Z.pos (p * p)) ≤ 2 * Z.pos (digits2_pos p).
Proof.
  apply Zdigits2_le_pow; [lia|].
  destruct (digits2_bounds p) as [_ Hhi].
  replace (2 * Z.pos (digits2_pos p))
    with (Z.pos (digits2_pos p) + Z.pos (digits2_pos p)) by lia.
  rewrite Z.pow_add_r by lia. rewrite Pos2Z.inj_mul. nia.
Qed.

Lemma Zdigits2_pos m : 0 ≤ m → 0 < Zdigits2 m → 0 < m.
Proof. destruct m; simpl; lia. Qed.

Lemma iter_pos_nat {A} (f : A → A) n x :
  SpecFloat.iter_pos f n x = Nat.iter (Pos.to_nat n) f x.
Proof.
  revert x. induction n as [n IH|n IH|]; intros x; cbn [SpecFloat.iter_pos].
  - rewrite !IH, Pos2Nat.inj_xI.
    replace (S (2 * Pos.to_nat n)) with (Pos.to_nat n + (Pos.to_nat n + 1))%nat by lia.
    rewrite !Nat.iter_add. done.
  - rewrite !IH, Pos2Nat.inj_xO.
    replace (2 * Pos.to_nat n)%nat with (Pos.to_nat n + Pos.to_nat n)%nat by lia.
    by rewrite Nat.iter_add.
  - done.
Qed.

Lemma shr_1_digits r :
  0 ≤ shr_m r →
  0 ≤ shr_m (shr_1 r) ∧
  Zdigits2 (shr_m (shr_1 r)) = Z.max 0 (Zdigits2 (shr_m r) - 1).
Proof.
  destruct r as [[|p|p] rr ss]; simpl; [lia| |lia].
  intros _. destruct p; simpl; lia.
Qed.

Lemma shr_iter_digits k r :
  0 ≤ shr_m r →
  0 ≤ shr_m (Nat.iter k shr_1 r) ∧
  Zdigits2 (shr_m (Nat.iter k shr_1 r))
  = Z.max 0 (Zdigits2 (shr_m r) - Z.of_nat k).
Proof.
  intros Hr. induction k as [|k [IH1 IH2]].
  - simpl. destruct (shr_m r); simpl in *; lia.
  - rewrite Nat.iter_succ. destruct (shr_1_digits _ IH1) as [H1 H2].
    split; [done|]. rewrite H2, IH2. lia.
Qed.

Lemma shr_record_of_loc_m m l : shr_m (shr_record_of_loc m l) = m.
Proof. by destruct l as [|[]]. Qed.

Lemma shr_fexp_pos m e l :
  0 < m → emin ≤ e →
  0 < shr_m (shr_fexp prec emax m e l).1 ∧ emin ≤ (shr_fexp prec emax m e l).2.
Proof.
  intros Hm He. unfold shr_fexp, shr.
  assert (Hd : 0 < Zdigits2 m) by (destruct m; simpl; lia).
  destruct (fexp prec emax (Zdigits2 m + e) - e) as [|n|n] eqn:Hn; simpl;
    rewrite ?shr_record_of_loc_m; try done.
  rewrite iter_pos_nat.
  destruct (shr_iter_digits (Pos.to_nat n) (shr_record_of_loc m l)) as [H1 H2];
    [rewrite shr_record_of_loc_m; lia|].
  rewrite shr_record_of_loc_m, positive_nat_Z in H2.
  unfold fexp, SpecFloat.emin, prec, emax in *.
  split; [apply Zdigits2_pos; [done|]|]; lia.
Qed.

(** Where a shift leaves the mantissa and the exponent. *)
Lemma shr_fexp_bound m e l :
  0 ≤ m →
  let r := (shr_fexp prec emax m e l).1 in
  let e' := (shr_fexp prec emax m e l).2 in
  0 ≤ shr_m r ∧
  e' ≤ Z.max e (fexp prec emax (Zdigits2 m + e)) ∧
  Zdigits2 (shr_m r) + e' ≤ Z.max (Zdigits2 m + e) e'.
Proof.
  intros Hm. unfold shr_fexp, shr.
  destruct (fexp prec emax (Zdigits2 m + e) - e) as [|n|n] eqn:Hn; simpl;
    rewrite ?shr_record_of_loc_m; try lia.
  rewrite iter_pos_nat.
  destruct (shr_iter_digits (Pos.to_nat n) (shr_record_of_loc m l)) as [H1 H2];
    [rewrite shr_record_of_loc_m; lia|].
  rewrite shr_record_of_loc_m, positive_nat_Z in H2. lia.
Qed.

(** ** Rounding keeps the sign and the magnitude *)

Lemma binary_round_aux_sign s m e l :
  0 < m → emin ≤ e → signedNonzero s (binary_round_aux prec emax s m e l).
Proof.
  intros Hm He. unfold binary_round_aux.
  destruct (shr_fexp_pos m e l Hm He) as [H1 H1e].
  destruct (shr_fexp prec emax m e l) as [r1 e1]. simpl in H1, H1e.
  set (m2 := round_nearest_even (shr_m r1) (loc_of_shr_record r1)).
  assert (Hm2 : 0 < m2).
  { unfold m2, round_nearest_even.
    destruct (loc_of_shr_record r1) as [|[]]; try destruct (Z.even _); lia. }
  destruct (shr_fexp_pos m2 e1 loc_Exact Hm2 H1e) as [H2 _].
  destruct (shr_fexp prec emax m2 e1 loc_Exact) as [r2 e2]. simpl in H2.
  destruct (shr_m r2) as [|p|p]; try lia.
  destruct (_ <=? _)%Z; [left; eauto|by right].
Qed.

(** A value below 4 in magnitude does not round to an infinity. *)
Lemma binary_round_aux_small s m e l :
  0 < m → Zdigits2 m + e ≤ 2 →
  binary_round_aux prec emax s m e l = S754_zero s ∨
  ∃ m' e', binary_round_aux prec emax s m e l = S754_finite s m' e'.
Proof.
  intros Hm Hsmall. unfold binary_round_aux.
  pose proof (shr_fexp_bound m e l ltac:(lia)) as (H1 & H1e & H1d).
  destruct (shr_fexp prec emax m e l) as [r1 e1]. simpl in H1, H1e, H1d.
  set (m2 := round_nearest_even (shr_m r1) (loc_of_shr_record r1)).
  assert (Hm2 : 0 ≤ m2 ∧ Zdigits2 m2 ≤ Zdigits2 (shr_m r1) + 1).
  { pose proof (Zdigits2_succ (shr_m r1) H1).
    unfold m2, round_nearest_even.
    destruct (loc_of_shr_record r1) as [|[]]; try destruct (Z.even _); lia. }
  pose proof (shr_fexp_bound m2 e1 loc_Exact ltac:(lia)) as (H2 & H2e & _).
  destruct (shr_fexp prec emax m2 e1 loc_Exact) as [r2 e2]. simpl in H2, H2e.
  assert (0 < Zdigits2 m) by (destruct m; simpl; lia).
  unfold fexp, SpecFloat.emin, prec, emax in *.
  destruct (shr_m r2) as [|p|p]; [by left| |lia].
  right. rewrite (proj2 (Z.leb_le _ _)) by lia. eauto.
Qed.

(** Rounding treats the sign as a tag. *)
Lemma binary_round_aux_opp s m e l :
  SFopp (binary_round_aux prec emax s m e l)
  = binary_round_aux prec emax (negb s) m e l.
Proof.
  unfold binary_round_aux.
  destruct (shr_fexp prec emax m e l) as [r1 e1].
  destruct (shr_fexp prec emax _ e1 loc_Exact) as [r2 e2].
  destruct (shr_m r2); try done. by destruct (_ <=? _)%Z.
Qed.

Lemma binary_round_sign s m e :
  emin ≤ e → signedNonzero s (binary_round prec emax s m e).
Proof.
  intros He. unfold binary_round, shl_align.
  destruct (fexp prec emax (Z.pos (digits2_pos m) + e) - e) eqn:Hn;
    apply binary_round_aux_sign; try lia.
  unfold fexp, SpecFloat.emin. lia.
Qed.

Lemma binary_round_opp s m e :
  SFopp (binary_round prec emax s m e) = binary_round prec emax (negb s) m e.
Proof.
  unfold binary_round. destruct (shl_align _ _ _). apply binary_round_aux_opp.
Qed.

Lemma binary_normalize_sign m e :
  emin ≤ e →
  match m with
  | 0 => binary_normalize prec emax m e false = S754_zero false
  | Z.pos _ => signedNonzero false (binary_normalize prec emax m e false)
  | Z.neg _ => signedNonzero true (binary_normalize prec emax m e false)
  end.
Proof. intros He. destruct m; simpl; [done| |]; by apply binary_round_sign. Qed.

Lemma binary_normalize_opp m e :
  m ≠ 0 →
  binary_normalize prec emax (- m) e false
  = SFopp (binary_normalize prec emax m e false).
Proof. destruct m; [done| |]; intros _; simpl; by rewrite binary_round_opp. Qed.

(** ** Subtraction and order *)

Lemma shl_align_value m e ez :
  ez ≤ e → Z.pos (shl_align m e ez).1 = Z.pos m * 2 ^ (e - ez).
Proof.
  intros Hle. unfold shl_align.
  destruct (ez - e) as [|d|d] eqn:Hd; simpl; try lia.
  - replace (e - ez) with 0 by lia. lia.
  - replace (e - ez) with (Z.pos d) by lia.
    change (Pos.iter xO m d) with (shift_pos d m).
    rewrite shift_pos_correct. change (Zpower_pos 2 d) with (2 ^ Z.pos d). lia.
Qed.

(** What validity says of a finite double. *)
Lemma valid_finite s m e :
  valid_binary (S754_finite s m e) = true →
  emin ≤ e ∧ Z.pos (digits2_pos m) ≤ 53 ∧
  (emin < e → Z.pos (digits2_pos m) = 53).
Proof.
  simpl. unfold bounded, canonical_mantissa, fexp, SpecFloat.emin, prec, emax.
  intros [Hc _]%andb_prop. apply Z.eqb_eq in Hc. lia.
Qed.

(** The larger exponent wins between two valid mantissas. *)
Lemma aligned_lt mx ex my ey :
  valid_binary (S754_finite false mx ex) = true →
  valid_binary (S754_finite false my ey) = true →
  ex < ey → Z.pos mx < Z.pos my * 2 ^ (ey - ex).
Proof.
  intros (Hex & Hdx & _)%valid_finite (Hey & _ & Hdy)%valid_finite Hlt.
  specialize (Hdy ltac:(lia)).
  destruct (digits2_bounds mx) as [_ Hx], (digits2_bounds my) as [Hy _].
  rewrite Hdy in Hy.
  assert (2 ^ Z.pos (digits2_pos mx) ≤ 2 ^ 53) by (apply Z.pow_le_mono_r; lia).
  assert (2 ^ 1 ≤ 2 ^ (ey - ex)) by (apply Z.pow_le_mono_r; lia).
  change (2 ^ (53 - 1)) with 4503599627370496 in Hy.
  change (2 ^ 53) with 9007199254740992 in *. change (2 ^ 1) with 2 in *.
  nia.
Qed.

(** The sign of the aligned difference is the order of the two doubles. *)
Lemma finite_compare_aligned sx mx ex sy my ey :
  valid_binary (S754_finite sx mx ex) = true →
  valid_binary (S754_finite sy my ey) = true →
  0 < cond_Zopp sy (Z.pos my * 2 ^ (ey - Z.min ey ex))
      - cond_Zopp sx (Z.pos mx * 2 ^ (ex - Z.min ey ex))
  ↔ SFltb (S754_finite sx mx ex) (S754_finite sy my ey) = true.
Proof.
  intros Hx Hy. unfold SFltb, SFcompare.
  change (Pos.compare_cont Eq mx my) with (mx ?= my)%positive.
  destruct (Z.compare_spec ex ey) as [->|Hlt|Hgt].
  - rewrite Z.min_id, Z.sub_diag, Z.pow_0_r, !Z.mul_1_r.
    destruct (Pos.compare_spec mx my) as [->|Hm|Hm];
      destruct sx, sy; simpl; split; intros; try done; lia.
  - pose proof (aligned_lt mx ex my ey Hx Hy Hlt) as Hal.
    rewrite Z.min_r by lia. rewrite Z.sub_diag, Z.pow_0_r, Z.mul_1_r.
    destruct sx, sy; simpl; split; intros; try done; lia.
  - pose proof (aligned_lt my ey mx ex Hy Hx ltac:(lia)) as Hal.
    rewrite Z.min_l by lia. rewrite Z.sub_diag, Z.pow_0_r, Z.mul_1_r.
    destruct sx, sy; simpl; split; intros; try done; lia.
Qed.

Lemma SFltb_zero_signedNonzero s x :
  signedNonzero s x → SFltb (S754_zero false) x = negb s.
Proof. intros [(m & e & ->)| ->]; by destruct s. Qed.

(** The comparator of the sort: [0 < y - x] exactly when [x < y]. *)
Lemma SFsub_positive x y :
  valid_binary x = true → valid_binary y = true →
  x ≠ S754_nan → y ≠ S754_nan →
  SFltb (S754_zero false) (SFsub prec emax y x) = SFltb x y.
Proof.
  intros Hx Hy Hnx Hny.
  destruct x as [sx|sx| |sx mx ex], y as [sy|sy| |sy my ey]; try done;
    try (by destruct sx, sy).
  pose proof (finite_compare_aligned sx mx ex sy my ey Hx Hy) as Hcmp.
  destruct (valid_finite _ _ _ Hx) as (Hex & _), (valid_finite _ _ _ Hy) as (Hey & _).
  unfold SFsub. rewrite !shl_align_value by lia.
  pose proof (binary_normalize_sign
    (cond_Zopp sy (Z.pos my * 2 ^ (ey - Z.min ey ex))
     - cond_Zopp sx (Z.pos mx * 2 ^ (ex - Z.min ey ex)))
    (Z.min ey ex) ltac:(lia)) as Hsign.
  destruct (cond_Zopp sy _ - cond_Zopp sx _) as [|p|p].
  - rewrite Hsign. destruct (SFltb (S754_finite sx mx ex) _); [|done].
    destruct Hcmp as [_ Hcmp]. specialize (Hcmp eq_refl). lia.
  - rewrite (SFltb_zero_signedNonzero _ _ Hsign). symmetry. apply Hcmp. lia.
  - rewrite (SFltb_zero_signedNonzero _ _ Hsign).
    destruct (SFltb (S754_finite sx mx ex) _); [|done].
    destruct Hcmp as [_ Hcmp]. specialize (Hcmp eq_refl). lia.
Qed.

(** [SFcompare] is antisymmetric. *)
Lemma SFcompare_swap x y :
  SFcompare y x = CompOpp <$> SFcompare x y.
Proof.
  destruct x as [sx|sx| |sx mx ex], y as [sy|sy| |sy my ey]; try done;
    try (by destruct sx, sy); try (by destruct sx); try (by destruct sy).
  unfold SFcompare.
  change (Pos.compare_cont Eq mx my) with (mx ?= my)%positive.
  change (Pos.compare_cont Eq my mx) with (my ?= mx)%positive.
  destruct (Z.compare_spec ex ey), (Z.compare_spec ey ex); try lia;
    destruct sx, sy; simpl; try done;
    destruct (Pos.compare_spec mx my), (Pos.compare_spec my mx); try lia; done.
Qed.

Lemma SFcompare_Some x y :
  x ≠ S754_nan → y ≠ S754_nan → is_Some (SFcompare x y).
Proof.
  destruct x as [sx|sx| |sx mx ex], y as [sy|sy| |sy my ey]; simpl; eauto;
    by intros.
Qed.

(** Swapping the operands of a subtraction negates the result, unless both
    results are the same zero or NaN. *)
Lemma SFsub_swap x y :
  SFsub prec emax y x = SFopp (SFsub prec emax x y) ∨
  SFsub prec emax y x = SFsub prec emax x y.
Proof.
  destruct x as [sx|sx| |sx mx ex], y as [sy|sy| |sy my ey]; simpl; auto;
    try (destruct sx, sy; simpl; by auto); try (destruct sx; simpl; by auto);
    try (destruct sy; simpl; by auto).
  rewrite (Z.min_comm ey ex).
  set (X := cond_Zopp sx (Z.pos (shl_align mx ex (Z.min ex ey)).1)).
  set (Y := cond_Zopp sy (Z.pos (shl_align my ey (Z.min ex ey)).1)).
  destruct (decide (X - Y = 0)) as [H0|Hne].
  - right. rewrite H0. by replace (Y - X) with 0 by lia.
  - left. replace (Y - X) with (- (X - Y)) by lia.
    by apply binary_normalize_opp.
Qed.

(** ** Sums and differences of finite doubles are numbers *)

Lemma binary_normalize_not_nan m e :
  emin ≤ e → binary_normalize prec emax m e false ≠ S754_nan.
Proof.
  intros He Hnan. pose proof (binary_normalize_sign m e He) as Hs.
  rewrite Hnan in Hs.
  destruct m; [done| |]; by destruct Hs as [(? & ? & ?)|?].
Qed.

Lemma SFadd_not_nan x y :
  valid_binary x = true → valid_binary y = true →
  (∃ s, x = S754_zero s) ∨ (∃ s m e, x = S754_finite s m e) →
  (∃ s, y = S754_zero s) ∨ (∃ s m e, y = S754_finite s m e) →
  SFadd prec emax x y ≠ S754_nan.
Proof.
  intros Hx Hy [[sx ->]|(sx & mx & ex & ->)] [[sy ->]|(sy & my & ey & ->)];
    try (by destruct sx, sy).
  apply valid_finite in Hx as (Hex & _), Hy as (Hey & _).
  apply binary_normalize_not_nan. lia.
Qed.

Lemma SFsub_not_nan x y :
  valid_binary x = true → valid_binary y = true →
  x ≠ S754_nan →
  (∃ s, y = S754_zero s) ∨ (∃ s m e, y = S754_finite s m e) →
  SFsub prec emax x y ≠ S754_nan.
Proof.
  intros Hx Hy Hnx [[sy ->]|(sy & my & ey & ->)];
    destruct x as [sx|sx| |sx mx ex]; try done; try (by destruct sx, sy).
  apply valid_finite in Hx as (Hex & _), Hy as (Hey & _).
  apply binary_normalize_not_nan. lia.
Qed.

(** ** Products and quotients *)

Lemma SFmul_opp_l x y :
  SFmul prec emax (SFopp x) y = SFopp (SFmul prec emax x y).
Proof.
  destruct x as [sx|sx| |sx mx ex], y as [sy|sy| |sy my ey]; simpl; try done;
    try (by destruct sx, sy).
  rewrite binary_round_aux_opp. by destruct sx, sy.
Qed.

Lemma SFmul_comm x y : SFmul prec emax x y = SFmul prec emax y x.
Proof.
  destruct x as [sx|sx| |sx mx ex], y as [sy|sy| |sy my ey]; simpl; try done;
    try (by destruct sx, sy).
  by rewrite Pos.mul_comm, Z.add_comm, xorb_comm.
Qed.

Lemma SFdiv_opp_l x y :
  SFdiv prec emax (SFopp x) y = SFopp (SFdiv prec emax x y).
Proof.
  destruct x as [sx|sx| |sx mx ex], y as [sy|sy| |sy my ey]; simpl; try done;
    try (by destruct sx, sy).
  destruct (SFdiv_core_binary _ _ _ _ _ _) as [[mz ez] lz].
  rewrite binary_round_aux_opp. by destruct sx, sy.
Qed.

(** ** Signs of sums, products and square roots *)

Lemma SFadd_comm x y : SFadd prec emax x y = SFadd prec emax y x.
Proof.
  destruct x as [sx|sx| |sx mx ex], y as [sy|sy| |sy my ey]; simpl; try done;
    try (by destruct sx, sy).
  by rewrite Z.min_comm, Z.add_comm.
Qed.

Lemma SFsub_diag_not_positive x :
  SFltb (S754_zero false) (SFsub prec emax x x) = false.
Proof.
  destruct x as [s|s| |s m e]; simpl; try done; try (by destruct s).
  by rewrite Z.sub_diag.
Qed.

(** Rounding a mantissa that is not negative gives a value of the sign it
    is told, never NaN. *)
Lemma binary_round_aux_signed s m e l :
  0 ≤ m →
  binary_round_aux prec emax s m e l = S754_zero s ∨
  signedNonzero s (binary_round_aux prec emax s m e l).
Proof.
  intros Hm. unfold binary_round_aux.
  pose proof (shr_fexp_bound m e l Hm) as (H1 & _).
  destruct (shr_fexp prec emax m e l) as [r1 e1]. simpl in H1.
  set (m2 := round_nearest_even (shr_m r1) (loc_of_shr_record r1)).
  assert (Hm2 : 0 ≤ m2).
  { unfold m2, round_nearest_even.
    destruct (loc_of_shr_record r1) as [|[]]; try destruct (Z.even _); lia. }
  pose proof (shr_fexp_bound m2 e1 loc_Exact Hm2) as (H2 & _).
  destruct (shr_fexp prec emax m2 e1 loc_Exact) as [r2 e2]. simpl in H2.
  destruct (shr_m r2) as [|p|p]; [by left| |lia].
  right. destruct (_ <=? _)%Z; [left; eauto|by right].
Qed.

Lemma SFnonneg_cases x :
  SFnonneg x ↔ (∃ s, x = S754_zero s) ∨ signedNonzero false x.
Proof.
  unfold SFnonneg, signedNonzero. split.
  - destruct x as [s|s| |s m e]; try destruct s; try done; intros _.
    + left. by exists true.
    + left. by exists false.
    + right. by right.
    + right. left. by exists m, e.
  - intros [[s ->]|[(m & e & ->)| ->]]; done.
Qed.

Lemma SFmul_positive_nonneg m e y :
  SFnonneg y → SFnonneg (SFmul prec emax (S754_finite false m e) y).
Proof.
  intros [[s ->]|[(m' & e' & ->)| ->]]%SFnonneg_cases; simpl; try done.
  apply SFnonneg_cases.
  destruct (binary_round_aux_signed false (Z.pos (m * m')) (e + e') loc_Exact)
    as [->|Hs]; [lia|left; eauto|by right].
Qed.

Lemma SFmul_square_sign x :
  SFmul prec emax x x = S754_nan ∨
  SFmul prec emax x x = S754_zero false ∨
  signedNonzero false (SFmul prec emax x x).
Proof.
  destruct x as [s|s| |s m e]; simpl; try (by left).
  - right. left. by destruct s.
  - right. right. right. by destruct s.
  - right. replace (xorb s s) with false by (by destruct s).
    destruct (binary_round_aux_signed false (Z.pos (m * m)) (e + e) loc_Exact)
      as [->|Hs]; [lia|by left|by right].
Qed.

(** A sum whose first term is [+0] or positive is never [-0]. *)
Lemma SFadd_not_negative_zero x y :
  valid_binary x = true → valid_binary y = true →
  x = S754_zero false ∨ signedNonzero false x →
  SFadd prec emax x y ≠ S754_zero true.
Proof.
  intros Hx Hy [->|[(m & e & ->)| ->]].
  - destruct y as [sy|sy| |sy my ey]; try done. by destruct sy.
  - destruct y as [sy|sy| |sy my ey]; try done.
    destruct (valid_finite _ _ _ Hx) as (Hex & _),
             (valid_finite _ _ _ Hy) as (Hey & _).
    unfold SFadd.
    pose proof (binary_normalize_sign
      (cond_Zopp false (Z.pos (shl_align m e (Z.min e ey)).1)
       + cond_Zopp sy (Z.pos (shl_align my ey (Z.min e ey)).1))
      (Z.min e ey) ltac:(lia)) as Hsign.
    destruct (cond_Zopp false _ + cond_Zopp sy _) as [|p|p].
    + by rewrite Hsign.
    + by destruct Hsign as [(m' & e' & ->)| ->].
    + by destruct Hsign as [(m' & e' & ->)| ->].
  - destruct y as [sy|sy| |sy my ey]; try done. by destruct sy.
Qed.

(** The square root of anything but [-0] is NaN, [+0] or positive. *)
Lemma SFsqrt_sign x :
  x ≠ S754_zero true →
  SFsqrt prec emax x = S754_nan ∨
  SFsqrt prec emax x = S754_zero false ∨
  signedNonzero false (SFsqrt prec emax x).
Proof.
  intros Hx.
  destruct x as [s|s| |s m e]; try destruct s; cbn [SFsqrt];
    try (by left); try done.
  - right. by left.
  - right. right. by right.
  - right.
    destruct (SFsqrt_core_binary prec emax (Z.pos m) e) as [[mz ez] lz] eqn:Hcore.
    assert (Hmz : 0 ≤ mz).
    { unfold SFsqrt_core_binary in Hcore.
      match type of Hcore with
      | context [Z.sqrtrem ?n] =>
          assert (Hn : 0 ≤ n)
            by (destruct (e - 2 * _); try lia; apply Z.shiftl_nonneg; lia);
          pose proof (Z.sqrtrem_spec n Hn) as Hspec;
          destruct (Z.sqrtrem n) as [q r]
      end.
      injection Hcore as <- _ _. nia. }
    destruct (binary_round_aux_signed false mz ez lz Hmz) as [->|Hs];
      [by left|by right].
Qed.

(** ** Magnitudes *)

Lemma Zdigits2_mul p q :
  Zdigits2 (Z.pos (p * q)) ≤ Z.pos (digits2_pos p) + Z.pos (digits2_pos q).
Proof.
  apply Zdigits2_le_pow; [lia|].
  destruct (digits2_bounds p) as [_ Hp], (digits2_bounds q) as [_ Hq].
  rewrite Z.pow_add_r by lia. rewrite Pos2Z.inj_mul. nia.
Qed.

Lemma Zdigits2_mono a b : 0 ≤ a ≤ b → Zdigits2 a ≤ Zdigits2 b.
Proof.
  intros [Ha Hab]. destruct b as [|q|q]; [| |lia].
  - by replace a with 0 by lia.
  - apply Zdigits2_le_pow; [simpl; lia|]. split; [done|].
    destruct (digits2_bounds q) as [_ Hq]. simpl. lia.
Qed.

Lemma Zdigits2_shiftl p n :
  0 ≤ n → Zdigits2 (Z.shiftl (Z.pos p) n) ≤ Z.pos (digits2_pos p) + n.
Proof.
  intros Hn. rewrite Z.shiftl_mul_pow2 by done.
  apply Zdigits2_le_pow; [lia|].
  destruct (digits2_bounds p) as [_ Hp].
  rewrite Z.pow_add_r by lia.
  assert (0 < 2 ^ n) by (apply Z.pow_pos_nonneg; lia). nia.
Qed.

(** Rounding a mantissa of magnitude below [2 ^ k] gives a zero or a
    finite value below [2 ^ (k + 1)]: there is no overflow as long as [k]
    is below 970. *)
Lemma binary_round_aux_below s m e l k :
  0 ≤ m → Zdigits2 m + e ≤ k → e ≤ k → -1074 ≤ k ≤ 970 →
  binary_round_aux prec emax s m e l = S754_zero s ∨
  ∃ m' e', binary_round_aux prec emax s m e l = S754_finite s m' e' ∧
           Z.pos (digits2_pos m') + e' ≤ k + 1.
Proof.
  intros Hm Hk He Hrange. unfold binary_round_aux.
  pose proof (shr_fexp_bound m e l Hm) as (H1 & H1e & H1d).
  destruct (shr_fexp prec emax m e l) as [r1 e1]. simpl in H1, H1e, H1d.
  set (m2 := round_nearest_even (shr_m r1) (loc_of_shr_record r1)).
  assert (Hm2 : 0 ≤ m2 ∧ Zdigits2 m2 ≤ Zdigits2 (shr_m r1) + 1).
  { pose proof (Zdigits2_succ (shr_m r1) H1).
    unfold m2, round_nearest_even.
    destruct (loc_of_shr_record r1) as [|[]]; try destruct (Z.even _); lia. }
  pose proof (shr_fexp_bound m2 e1 loc_Exact ltac:(lia)) as (H2 & H2e & H2d).
  destruct (shr_fexp prec emax m2 e1 loc_Exact) as [r2 e2].
  simpl in H2, H2e, H2d.
  assert (0 ≤ Zdigits2 m) by (destruct m; simpl; lia).
  unfold fexp, SpecFloat.emin, prec, emax in *.
  destruct (shr_m r2) as [|p|p] eqn:Hr2; [by left| |lia].
  right. rewrite (proj2 (Z.leb_le _ _)) by lia.
  eexists _, _. split; [done|]. simpl in H2d. lia.
Qed.

Lemma SFmul_below k1 k2 x y :
  SFbelow k1 x → SFbelow k2 y → -1074 ≤ k1 + k2 ≤ 970 →
  SFbelow (k1 + k2 + 1) (SFmul prec emax x y).
Proof.
  destruct x as [sx|sx| |sx mx ex], y as [sy|sy| |sy my ey]; simpl; try done.
  intros Hx Hy Hk.
  pose proof (Zdigits2_mul mx my) as Hd.
  destruct (binary_round_aux_below (xorb sx sy) (Z.pos (mx * my)) (ex + ey)
              loc_Exact (k1 + k2)) as [->|(m' & e' & -> & Hb)];
    simpl in *; try done; lia.
Qed.

Lemma SFdiv_below k x sy my ey :
  SFbelow k x → -1074 ≤ k - ey ≤ 970 →
  SFbelow (k - ey + 1) (SFdiv prec emax x (S754_finite sy my ey)).
Proof.
  destruct x as [sx|sx| |sx mx ex]; simpl; try done.
  intros Hx Hk. unfold SFdiv_core_binary.
  set (e' := Z.min _ _).
  assert (He' : e' ≤ ex - ey) by (unfold e'; lia).
  set (m' := match ex - ey - e' with 0 => _ | Z.pos _ => _ | Z.neg _ => _ end).
  assert (Hm' : 0 ≤ m' ∧ Zdigits2 m' ≤ Z.pos (digits2_pos mx) + (ex - ey - e')).
  { unfold m'. destruct (ex - ey - e') as [|n|n] eqn:Hs; [simpl; lia| |lia].
    split; [apply Z.shiftl_nonneg; lia|]. apply Zdigits2_shiftl. lia. }
  pose proof (Z.div_eucl_eq m' (Z.pos my) ltac:(lia)) as Hdiv.
  pose proof (Z.mod_pos_bound m' (Z.pos my) ltac:(lia)) as Hmod.
  unfold Z.modulo in Hmod.
  destruct (Z.div_eucl m' (Z.pos my)) as [q r].
  assert (Hq : 0 ≤ q ≤ m') by nia.
  pose proof (Zdigits2_mono q m' Hq).
  destruct (binary_round_aux_below (xorb sx sy) q e' (new_location (Z.pos my) r)
              (k - ey)) as [->|(m2 & e2 & -> & Hb)];
    simpl in *; try done; lia.
Qed.

(** ** Equal values *)

Lemma SFcompare_Eq x y :
  SFcompare x y = Some Eq →
  x = y ∨ ∃ s s', x = S754_zero s ∧ y = S754_zero s'.
Proof.
  destruct x as [sx|sx| |sx mx ex], y as [sy|sy| |sy my ey]; simpl; try done;
    try (by destruct sx, sy; intros; auto); try (by destruct sx);
    try (by destruct sy); try (right; eauto; fail).
  destruct sx, sy; try done.
  - destruct (Z.compare_spec ex ey) as [->| |]; try done.
    change (PosDef.Pos.compare_cont Eq mx my) with (Pos.compare mx my).
    destruct (Pos.compare_spec mx my) as [->| |]; try done. by left.
  - destruct (Z.compare_spec ex ey) as [->| |]; try done.
    change (PosDef.Pos.compare_cont Eq mx my) with (Pos.compare mx my).
    destruct (Pos.compare_spec mx my) as [->| |]; try done. by left.
Qed.

(** Two values that compare equal to a third have a difference that is
    not positive. *)
Lemma SFsub_equal_not_positive x y k :
  SFeqb x k = true → SFeqb y k = true →
  SFltb (S754_zero false) (SFsub prec emax y x) = false.
Proof.
  unfold SFeqb.
  destruct (SFcompare x k) as [[]|] eqn:Hx; try done.
  destruct (SFcompare y k) as [[]|] eqn:Hy; try done. intros _ _.
  apply SFcompare_Eq in Hx, Hy.
  destruct Hx as [Hx|(s1 & s2 & Hx & Hk)], Hy as [Hy|(s3 & s4 & Hy & Hk')];
    subst.
  - apply SFsub_diag_not_positive.
  - by destruct s3, s4.
  - by destruct s1, s2.
  - by destruct s1, s3.
Qed.

(** ** The same facts on primitive floats *)

Local Open Scope float_scope.

Lemma is_nan_Prim2SF a : is_nan a = false ↔ Prim2SF a ≠ S754_nan.
Proof.
  unfold is_nan. rewrite FloatAxioms.eqb_spec, negb_false_iff. unfold SFeqb.
  destruct (Prim2SF a) as [s|s| |s m e]; try (by destruct s).
  - split; [discriminate|done].
  - unfold SFcompare.
    change (Pos.compare_cont Eq m m) with (m ?= m)%positive.
    rewrite Z.compare_refl, Pos.compare_refl. by destruct s.
Qed.

Lemma sub_pos_ltb a b :
  is_nan a = false → is_nan b = false → (0 <? b - a) = (a <? b).
Proof.
  intros Ha%is_nan_Prim2SF Hb%is_nan_Prim2SF.
  rewrite !FloatAxioms.ltb_spec, FloatAxioms.sub_spec.
  change (Prim2SF 0) with (S754_zero false).
  apply SFsub_positive; auto using Prim2SF_valid.
Qed.

Lemma ltb_leb a b : (a <? b) = true → (a <=? b) = true.
Proof.
  rewrite FloatAxioms.ltb_spec, FloatAxioms.leb_spec. unfold SFltb, SFleb.
  by destruct (SFcompare _ _) as [[]|].
Qed.

Lemma not_ltb_leb a b :
  is_nan a = false → is_nan b = false → (a <? b) = false → (b <=? a) = true.
Proof.
  intros Ha%is_nan_Prim2SF Hb%is_nan_Prim2SF.
  rewrite FloatAxioms.ltb_spec, FloatAxioms.leb_spec. unfold SFltb, SFleb.
  rewrite (SFcompare_swap (Prim2SF a) (Prim2SF b)).
  destruct (SFcompare_Some _ _ Ha Hb) as [c ->]. by destruct c.
Qed.

Lemma mul_opp_l a b : (- a) * b = - (a * b).
Proof.
  apply Prim2SF_inj.
  by rewrite mul_spec, !opp_spec, mul_spec, <- SFmul_opp_l.
Qed.

Lemma mul_comm a b : a * b = b * a.
Proof. apply Prim2SF_inj. rewrite !mul_spec. apply SFmul_comm. Qed.

Lemma mul_opp_r a b : a * (- b) = - (a * b).
Proof. by rewrite mul_comm, mul_opp_l, (mul_comm b a). Qed.

Lemma div_opp_l a b : (- a) / b = - (a / b).
Proof.
  apply Prim2SF_inj.
  by rewrite div_spec, !opp_spec, div_spec, <- SFdiv_opp_l.
Qed.

Lemma opp_involutive a : - - a = a.
Proof.
  apply Prim2SF_inj. rewrite !opp_spec.
  destruct (Prim2SF a); simpl; by rewrite ?negb_involutive.
Qed.

Lemma mul_opp_opp a b : (- a) * (- b) = a * b.
Proof. by rewrite mul_opp_l, mul_opp_r, opp_involutive. Qed.

Lemma sub_swap a b : b - a = - (a - b) ∨ b - a = a - b.
Proof.
  destruct (SFsub_swap (Prim2SF a) (Prim2SF b)) as [Hs|Hs].
  - left. apply Prim2SF_inj. by rewrite opp_spec, !FloatAxioms.sub_spec.
  - right. apply Prim2SF_inj. by rewrite !FloatAxioms.sub_spec.
Qed.

Lemma is_finite_Prim2SF x :
  is_finite x = true →
  (∃ s, Prim2SF x = S754_zero s) ∨ (∃ s m e, Prim2SF x = S754_finite s m e).
Proof.
  unfold is_finite, is_nan, is_infinity.
  rewrite !FloatAxioms.eqb_spec, abs_spec.
  change (Prim2SF infinity) with (S754_infinity false).
  destruct (Prim2SF x) as [s|s| |s m e]; simpl; eauto; try done.
  by destruct s.
Qed.

Lemma sub_diag x : is_finite x = true → x - x = 0.
Proof.
  intros Hx. apply Prim2SF_inj. rewrite FloatAxioms.sub_spec.
  change (Prim2SF 0) with (S754_zero false).
  destruct (is_finite_Prim2SF x Hx) as [[s ->]|(s & m & e & ->)].
  - by destruct s.
  - simpl. by rewrite Z.sub_diag.
Qed.

(** The cosine term of a point with itself: a product of two equal factors
    of magnitude at most 1, times zero, is zero. *)
Lemma square_mul_zero c : (abs c <=? 1) = true → c * c * 0 = 0.
Proof.
  intros Hc. apply Prim2SF_inj. rewrite !mul_spec.
  rewrite FloatAxioms.leb_spec, abs_spec in Hc.
  pose proof (Prim2SF_valid c) as Hv.
  change (Prim2SF 1) with (S754_finite false 4503599627370496 (-52)) in Hc.
  change (Prim2SF 0) with (S754_zero false).
  destruct (Prim2SF c) as [s|s| |s m e]; try done.
  - by destruct s.
  - assert (He : (e ≤ -52)%Z).
    { unfold SFleb, SFabs, SFcompare in Hc.
      destruct (Z.compare_spec e (-52)); [lia|lia|done]. }
    apply valid_finite in Hv as (_ & Hd & _).
    pose proof (Zdigits2_square m).
    cbn [SF64mul SFmul].
    destruct (binary_round_aux_small (xorb s s) (Z.pos (m * m)) (e + e) loc_Exact)
      as [->|(m' & e' & ->)]; [lia|lia| |]; by destruct s.
Qed.

(** A sum of two finite doubles less a finite double is a number. *)
Lemma add_sub_is_number a b c :
  is_finite a = true → is_finite b = true → is_finite c = true →
  is_nan (a + b - c) = false.
Proof.
  intros Ha%is_finite_Prim2SF Hb%is_finite_Prim2SF Hc%is_finite_Prim2SF.
  apply is_nan_Prim2SF. rewrite FloatAxioms.sub_spec, add_spec.
  apply SFsub_not_nan; auto using Prim2SF_valid.
  - rewrite <- add_spec. apply Prim2SF_valid.
  - apply SFadd_not_nan; auto using Prim2SF_valid.
Qed.

Lemma add_comm a b : a + b = b + a.
Proof. apply Prim2SF_inj. rewrite !add_spec. apply SFadd_comm. Qed.

Lemma sub_diag_not_positive a : (0 <? a - a) = false.
Proof.
  rewrite FloatAxioms.ltb_spec, FloatAxioms.sub_spec.
  apply SFsub_diag_not_positive.
Qed.

Lemma is_nan_true_Prim2SF a : is_nan a = true ↔ Prim2SF a = S754_nan.
Proof.
  pose proof (is_nan_Prim2SF a) as [Hn1 Hn2].
  destruct (is_nan a); split; try done.
  - intros _. destruct (Prim2SF a); try done; by discriminate Hn2.
  - intros E. by destruct (Hn1 eq_refl).
Qed.

(** A positive constant times a value that is NaN or at least zero is NaN
    or at least zero. *)
Lemma mul_positive_nonneg c a :
  (0 <? c) = true → is_finite c = true →
  is_nan a = true ∨ (0 <=? a) = true →
  is_nan (c * a) = true ∨ (0 <=? c * a) = true.
Proof.
  intros Hc Hfin Ha.
  rewrite FloatAxioms.ltb_spec in Hc. change (Prim2SF 0) with (S754_zero false) in *.
  rewrite is_nan_true_Prim2SF, FloatAxioms.leb_spec, mul_spec in *.
  change (Prim2SF 0) with (S754_zero false) in *.
  destruct (is_finite_Prim2SF c Hfin) as [[s Hs]|(s & m & e & Hs)];
    rewrite Hs in *; [by destruct s|].
  destruct s; [done|].
  destruct Ha as [->|Ha]; [by left|right].
  by apply SFmul_positive_nonneg.
Qed.

Lemma plus_signed_Prim2SF a :
  Prim2SF a = S754_zero false ∨ signedNonzero false (Prim2SF a) →
  a = 0 ∨ (0 <? a) = true.
Proof.
  intros [Ha|Ha].
  - left. by apply Prim2SF_inj.
  - right. rewrite FloatAxioms.ltb_spec. change (Prim2SF 0) with (S754_zero false).
    by rewrite (SFltb_zero_signedNonzero _ _ Ha).
Qed.

(** The square root of a sum whose first term is a square is NaN, [+0] or
    positive: it is never [-0]. *)
Lemma sqrt_square_sum s t :
  is_nan (sqrt (s * s + t)) = true ∨
  sqrt (s * s + t) = 0 ∨ (0 <? sqrt (s * s + t)) = true.
Proof.
  rewrite is_nan_true_Prim2SF.
  assert (Prim2SF (sqrt (s * s + t)) = S754_nan ∨
          Prim2SF (sqrt (s * s + t)) = S754_zero false ∨
          signedNonzero false (Prim2SF (sqrt (s * s + t)))) as [Hn|Hp].
  { rewrite sqrt_spec, add_spec.
    pose proof (Prim2SF_valid (s * s)) as Hv. rewrite mul_spec in *.
    unfold SF64sqrt, SF64add, SF64mul in *.
    destruct (SFmul_square_sign (Prim2SF s)) as [Hn|Hp].
    - left. by rewrite Hn.
    - by apply SFsqrt_sign, SFadd_not_negative_zero; try apply Prim2SF_valid. }
  - by left.
  - right. by apply plus_signed_Prim2SF.
Qed.

Lemma is_finite_below k x : SFbelow k (Prim2SF x) → is_finite x = true.
Proof.
  unfold is_finite, is_nan, is_infinity.
  rewrite !FloatAxioms.eqb_spec, abs_spec.
  change (Prim2SF infinity) with (S754_infinity false).
  destruct (Prim2SF x) as [s|s| |s m e]; simpl; try done.
  unfold SFeqb, SFcompare. intros _.
  rewrite Z.compare_refl, Pos.compare_refl. by destruct s.
Qed.

Lemma abs_leb_below x c s m e :
  Prim2SF c = S754_finite s m e →
  (abs x <=? c) = true → SFbelow (53 + e) (Prim2SF x).
Proof.
  intros Hc. rewrite FloatAxioms.leb_spec, abs_spec, Hc.
  pose proof (Prim2SF_valid x) as Hv.
  destruct (Prim2SF x) as [sx|sx| |sx mx ex]; simpl; try done.
  apply valid_finite in Hv as (_ & Hd & _).
  unfold SFleb, SFcompare. destruct s; [done|].
  destruct (Z.compare_spec ex e); [lia|lia|done].
Qed.

(** A latitude or longitude between -90 and 90 degrees (or of any such
    magnitude) has a finite value in radians. *)
Lemma degrees_to_radians_finite x :
  (abs x <=? 90) = true →
  is_finite (x * 0x1.921fb54442d18p+1 / 180) = true.
Proof.
  intros Hx.
  apply (abs_leb_below x 90 false 6333186975989760 (-46) eq_refl) in Hx.
  apply (is_finite_below 56). rewrite div_spec, mul_spec.
  change (Prim2SF 180) with (S754_finite false 6333186975989760 (-45)).
  change (56%Z) with (10 - -45 + 1)%Z.
  apply SFdiv_below; [|lia].
  change 10%Z with (7 + 2 + 1)%Z.
  apply SFmul_below; [exact Hx|by vm_compute|lia].
Qed.

Lemma sub_equal_not_positive a b k :
  (a =? k) = true → (b =? k) = true → (0 <? b - a) = false.
Proof.
  rewrite !FloatAxioms.eqb_spec, FloatAxioms.ltb_spec, FloatAxioms.sub_spec.
  apply SFsub_equal_not_positive.
Qed.

Local Close Scope float_scope.

End Binary64.

(** * Properties of the program *)

(** ** Generic facts on lists and maps *)

Lemma fold_left_invariant {S X} (f : S → X → S) (P : S → Prop) (Q : X → Prop)
  (l : list X) (s : S) :
  Forall Q l → (∀ s x, P s → Q x → P (f s x)) → P s → P (fold_left f l s).
Proof.
  intros Hl Hstep. revert s.
  induction Hl as [|x l Hx _ IH]; intros s Hs; simpl; [done|].
  apply IH. by apply Hstep.
Qed.

Lemma Forall_imap {A B} (P : A → Prop) (Q : B → Prop) (g : nat → A → B)
  (l : list A) :
  (∀ i x, P x → Q (g i x)) → Forall P l → Forall Q (imap g l).
Proof.
  intros Hg Hl. revert g Hg.
  induction Hl as [|x l Hx _ IH]; intros g Hg; [constructor|].
  rewrite imap_cons. constructor; [by apply Hg|].
  apply IH. intros i y. apply Hg.
Qed.

Lemma fmap_imap_same {A B C} (h : B → C) (h' : A → C) (g : nat → A → B)
  (l : list A) :
  (∀ i x, h (g i x) = h' x) → h <$> imap g l = h' <$> l.
Proof.
  revert g. induction l as [|x l IH]; intros g Hg; [done|].
  rewrite imap_cons, !fmap_cons, Hg. f_equal. apply IH. intros i y. apply Hg.
Qed.

Lemma sliceInner_middle {A} (first last : A) (mid : list A) :
  sliceInner (first :: mid ++ [last]) = mid.
Proof.
  unfold sliceInner.
  replace (length (first :: mid ++ [last]) - 2)%nat with (length mid)
    by (simpl; rewrite length_app; simpl; lia).
  simpl. rewrite drop_0. by rewrite take_app_length.
Qed.

Lemma NoDup_fmap_elem_inj {A B} (f : A → B) (l : list A) x y :
  NoDup (f <$> l) → x ∈ l → y ∈ l → f x = f y → x = y.
Proof.
  induction l as [|z l IH]; [by intros _ ?%elem_of_nil|].
  rewrite fmap_cons, NoDup_cons, !elem_of_cons.
  intros [Hz Hl] [->|Hx] [->|Hy] Hf; auto.
  - destruct Hz. rewrite Hf. by apply list_elem_of_fmap_2.
  - destruct Hz. rewrite <- Hf. by apply list_elem_of_fmap_2.
Qed.

Lemma NoDup_fmap_split {A B} (f : A → B) (l : list A) x :
  NoDup (f <$> l) → x ∈ l →
  ∃ l1 l2, l = l1 ++ x :: l2 ∧
           Forall (λ y, f y ≠ f x) l1 ∧ Forall (λ y, f y ≠ f x) l2.
Proof.
  intros Hnd Hx. apply list_elem_of_split in Hx as (l1 & l2 & ->).
  exists l1, l2. split; [done|].
  rewrite fmap_app, fmap_cons in Hnd.
  apply NoDup_app in Hnd as (_ & H1 & Hnd). apply NoDup_cons in Hnd as [H2 _].
  split; apply Forall_forall; intros y Hy Heq.
  - apply (H1 (f y)); [by apply list_elem_of_fmap_2|]. rewrite Heq. left.
  - apply H2. rewrite <- Heq. by apply list_elem_of_fmap_2.
Qed.

Lemma filter_flat_map_nil {A B} (P : B → Prop) `{∀ x, Decision (P x)}
  (f : A → list B) (l : list A) :
  Forall (λ x, Forall (λ e, ¬ P e) (f x)) l → filter P (flat_map f l) = [].
Proof.
  induction 1 as [|x l Hx _ IH]; [done|]. simpl.
  rewrite filter_app, IH, app_nil_r.
  induction Hx as [|e es He _ IHe]; [done|].
  by rewrite filter_cons_False.
Qed.

Lemma fold_insert_lookup_other {X V} (k : X → string) (v : X → V)
  (l : list X) (m0 : gmap string V) (key : string) :
  Forall (λ y, k y ≠ key) l →
  fold_left (λ m y, <[k y := v y]> m) l m0 !! key = m0 !! key.
Proof.
  intros Hl. revert m0. induction Hl as [|y l Hy _ IH]; intros m0; [done|].
  simpl. rewrite IH. by apply lookup_insert_ne.
Qed.

Lemma fold_insert_lookup {X V} (k : X → string) (v : X → V)
  (l : list X) (m0 : gmap string V) (x : X) :
  NoDup (k <$> l) → x ∈ l →
  fold_left (λ m y, <[k y := v y]> m) l m0 !! k x = Some (v x).
Proof.
  intros Hnd Hx.
  destruct (NoDup_fmap_split k l x Hnd Hx) as (l1 & l2 & -> & _ & H2).
  rewrite fold_left_app. simpl.
  rewrite fold_insert_lookup_other by done. apply lookup_insert_eq.
Qed.

(** ** The distance table holds the distance of every pair of locations *)

Lemma lookupDistance_Some `{Engine} locations a b :
  NoDup (Location._id <$> locations) → a ∈ locations → b ∈ locations →
  lookupDistance (distanceTable locations) (Location._id a) (Location._id b)
  = distance a b.
Proof.
  intros Hnd Ha Hb. unfold lookupDistance, distanceTable.
  rewrite (fold_insert_lookup Location._id (distanceRow locations)) by done.
  unfold distanceRow.
  by rewrite (fold_insert_lookup Location._id
                (λ loc2, calculateDistance (Location.latitude a) (Location.longitude a)
                           (Location.latitude loc2) (Location.longitude loc2))) by done.
Qed.

(** The depot [createOptimization] passes on is one of the locations. *)
Lemma selectDepot_elem locations depot :
  selectDepot locations = Some depot → depot ∈ locations.
Proof.
  unfold selectDepot.
  destruct (List.find Location.isDepot locations) as [d|] eqn:Hfind.
  - intros [= <-]. apply find_some in Hfind as [Hin _]. by apply list_elem_of_In.
  - destruct locations as [|l ls]; [done|]. intros [= <-]. left.
Qed.

(** ** The savings list *)

Lemma insertSaving_Permutation a l : insertSaving a l ≡ₚ a :: l.
Proof.
  induction l as [|b l IH]; [done|]. simpl.
  destruct (comparatorPositive a b); [|done].
  rewrite IH. apply Permutation_swap.
Qed.

Lemma sortSavings_Permutation l : sortSavings l ≡ₚ l.
Proof.
  induction l as [|a l IH]; [done|]. simpl.
  by rewrite insertSaving_Permutation, IH.
Qed.

Lemma savingsFor_entries distances locations depot loc1 :
  Forall (λ e, Saving.loc1 e = loc1 ∧
               Saving.loc2 e ∈ locations ∧
               Location._id (Saving.loc2 e) ≠ Location._id depot ∧
               Location._id loc1 ≠ Location._id (Saving.loc2 e) ∧
               Saving.saving e = tableSaving distances depot loc1 (Saving.loc2 e))
         (savingsFor distances locations depot loc1).
Proof.
  unfold savingsFor. apply Forall_flat_map, Forall_forall.
  intros loc2 Hin. unfold isDepotId.
  destruct (_ || _) eqn:E; [constructor|].
  apply orb_false_elim in E as [E1%bool_decide_eq_false E2%bool_decide_eq_false].
  apply Forall_singleton. simpl. by repeat split.
Qed.

Lemma computeSavings_entries distances locations depot :
  Forall (λ e, Saving.loc1 e ∈ locations ∧
               Saving.loc2 e ∈ locations ∧
               Location._id (Saving.loc1 e) ≠ Location._id depot ∧
               Location._id (Saving.loc2 e) ≠ Location._id depot ∧
               Location._id (Saving.loc1 e) ≠ Location._id (Saving.loc2 e) ∧
               Saving.saving e =
                 tableSaving distances depot (Saving.loc1 e) (Saving.loc2 e))
         (computeSavings distances locations depot).
Proof.
  unfold computeSavings. apply Forall_flat_map, Forall_forall.
  intros loc1 Hin. unfold isDepotId. case_bool_decide; [constructor|].
  eapply Forall_impl; [apply savingsFor_entries|].
  intros e (-> & ? & ? & ? & ?). by repeat split.
Qed.

Lemma savingsFor_ordered distances locations depot i j :
  NoDup (Location._id <$> locations) → j ∈ locations →
  Location._id j ≠ Location._id depot →
  Location._id i ≠ Location._id j →
  orderedCount i j (savingsFor distances locations depot i) = 1%nat.
Proof.
  intros Hnd Hj Hjd Hij.
  destruct (NoDup_fmap_split Location._id locations j Hnd Hj)
    as (m1 & m2 & Hsplit & Hm1 & Hm2).
  unfold orderedCount, savingsFor. rewrite Hsplit at 1.
  rewrite flat_map_app. cbn [flat_map].
  rewrite !filter_app.
  assert (Hskip : ∀ m, Forall (λ y, Location._id y ≠ Location._id j) m →
    filter (λ e, Location._id (Saving.loc1 e) = Location._id i ∧
                 Location._id (Saving.loc2 e) = Location._id j)
      (flat_map (λ loc2,
         if isDepotId depot loc2 || bool_decide (Location._id i = Location._id loc2)
         then [] else
           [Saving.mk i loc2
              (lookupDistance distances (Location._id depot) (Location._id i) +
               lookupDistance distances (Location._id depot) (Location._id loc2) -
               lookupDistance distances (Location._id i) (Location._id loc2))%float]) m) = []).
  { intros m Hm. apply filter_flat_map_nil.
    eapply Forall_impl; [exact Hm|]. intros y Hy.
    destruct (_ || _); constructor; [|constructor]. simpl. by intros [_ ?]. }
  rewrite !Hskip by done.
  unfold isDepotId. rewrite !bool_decide_eq_false_2 by done. simpl.
  by rewrite filter_cons_True.
Qed.

Lemma computeSavings_ordered distances locations depot i j :
  NoDup (Location._id <$> locations) → i ∈ locations → j ∈ locations →
  Location._id i ≠ Location._id depot →
  Location._id j ≠ Location._id depot →
  Location._id i ≠ Location._id j →
  orderedCount i j (computeSavings distances locations depot) = 1%nat.
Proof.
  intros Hnd Hi Hj Hid Hjd Hij.
  destruct (NoDup_fmap_split Location._id locations i Hnd Hi)
    as (l1 & l2 & Hsplit & Hl1 & Hl2).
  unfold orderedCount, computeSavings. rewrite Hsplit at 1.
  rewrite flat_map_app. cbn [flat_map]. rewrite !filter_app.
  assert (Hskip : ∀ l, Forall (λ y, Location._id y ≠ Location._id i) l →
    filter (λ e, Location._id (Saving.loc1 e) = Location._id i ∧
                 Location._id (Saving.loc2 e) = Location._id j)
      (flat_map (λ loc1, if isDepotId depot loc1 then []
                         else savingsFor distances locations depot loc1) l) = []).
  { intros l Hl. apply filter_flat_map_nil.
    eapply Forall_impl; [exact Hl|]. intros y Hy.
    destruct (isDepotId depot y); [constructor|].
    eapply Forall_impl; [apply savingsFor_entries|].
    intros e (-> & _) [? _]. done. }
  rewrite !Hskip by done.
  unfold isDepotId at 1. rewrite bool_decide_eq_false_2 by done.
  rewrite app_nil_r. simpl.
  by apply savingsFor_ordered.
Qed.

Lemma pairCount_ordered i j savings :
  Location._id i ≠ Location._id j →
  pairCount i j savings = (orderedCount i j savings + orderedCount j i savings)%nat.
Proof.
  intros Hij. unfold pairCount, orderedCount.
  induction savings as [|e savings IH]; [done|].
  rewrite !filter_cons. repeat case_decide; simpl; rewrite IH; try lia;
    exfalso; intuition congruence.
Qed.

Lemma orderedCount_sort i j savings :
  orderedCount i j (sortSavings savings) = orderedCount i j savings.
Proof.
  unfold orderedCount. by rewrite sortSavings_Permutation.
Qed.

Lemma insertSaving_HdRel a b l :
  HdRel (λ a b, (Saving.saving b <=? Saving.saving a)%float = true) b l →
  (Saving.saving a <=? Saving.saving b)%float = true →
  HdRel (λ a b, (Saving.saving b <=? Saving.saving a)%float = true) b
        (insertSaving a l).
Proof.
  intros Hl Hab. destruct l as [|c l]; simpl; [by constructor|].
  destruct (comparatorPositive a c); constructor; [|done].
  by inversion Hl.
Qed.

Lemma insertSaving_sorted a l :
  savingIsNumber a → Forall savingIsNumber l →
  nonIncreasing l → nonIncreasing (insertSaving a l).
Proof.
  unfold nonIncreasing, savingIsNumber. intros Ha Hl Hs.
  induction l as [|b l IH]; simpl; [by repeat constructor|].
  apply Forall_cons in Hl as [Hb Hl]. apply Sorted_inv in Hs as [Hs Hhd].
  unfold comparatorPositive. rewrite Binary64.sub_pos_ltb by done.
  destruct (Saving.saving a <? Saving.saving b)%float eqn:Hlt.
  - constructor; [by apply IH|].
    apply insertSaving_HdRel; [done|]. by apply Binary64.ltb_leb.
  - constructor; [by constructor|]. constructor.
    by apply Binary64.not_ltb_leb.
Qed.

Lemma sortSavings_sorted l :
  Forall savingIsNumber l → nonIncreasing (sortSavings l).
Proof.
  induction 1 as [|a l Ha Hl IH]; simpl; [constructor|].
  apply insertSaving_sorted; [done| |done].
  by rewrite sortSavings_Permutation.
Qed.

(** When the distances between the locations are finite, every saving is a
    number, and the savings list is sorted. *)
Lemma savings_are_numbers `{Engine} locations depot :
  NoDup (Location._id <$> locations) →
  depot ∈ locations →
  (∀ a b, a ∈ locations → b ∈ locations → is_finite (distance a b) = true) →
  Forall savingIsNumber
         (computeSavings (distanceTable locations) locations depot).
Proof.
  intros Hnd Hd Hfin.
  eapply Forall_impl; [apply computeSavings_entries|].
  intros e (H1 & H2 & _ & _ & _ & He). unfold savingIsNumber.
  rewrite He. unfold tableSaving. rewrite !lookupDistance_Some by done.
  apply Binary64.add_sub_is_number; by apply Hfin.
Qed.

Lemma savings_sorted_of_finite_distances `{Engine} locations depot :
  NoDup (Location._id <$> locations) →
  depot ∈ locations →
  (∀ a b, a ∈ locations → b ∈ locations → is_finite (distance a b) = true) →
  nonIncreasing
    (sortSavings (computeSavings (distanceTable locations) locations depot)).
Proof. intros. by apply sortSavings_sorted, savings_are_numbers. Qed.

(** ** The vehicle pool *)

Lemma expandVehicles_fresh vehicles :
  Forall (λ v, Instance.remainingCapacity v = Instance.capacity v)
         (expandVehicles vehicles).
Proof.
  apply Forall_forall. intros inst Hin.
  apply list_elem_of_In, in_flat_map in Hin as (v & _ & Hin).
  apply list_elem_of_In, elem_of_replicate in Hin as [-> _]. done.
Qed.

Lemma expandVehicles_elem vehicles v :
  v ∈ Instance.vehicle <$> expandVehicles vehicles ↔
  v ∈ vehicles ∧ 0 < Vehicle.count v.
Proof.
  rewrite list_elem_of_fmap. split.
  - intros (inst & -> & Hin).
    apply list_elem_of_In, in_flat_map in Hin as (v & Hv & Hin).
    apply list_elem_of_In, elem_of_replicate in Hin as [-> Hn]. simpl.
    split; [by apply list_elem_of_In|lia].
  - intros [Hv Hn]. exists (Instance.mk v (Vehicle.capacity v)). split; [done|].
    apply list_elem_of_In, in_flat_map. exists v. split; [by apply list_elem_of_In|].
    apply list_elem_of_In, elem_of_replicate. split; [done|lia].
Qed.

Lemma expandVehicles_length vehicles :
  Forall (λ v, 0 ≤ Vehicle.count v) vehicles →
  Z.of_nat (length (expandVehicles vehicles)) = sumCounts vehicles.
Proof.
  unfold sumCounts. induction 1 as [|v vs Hv _ IH]; [done|].
  cbn [expandVehicles flat_map]. rewrite length_app, length_replicate.
  fold (expandVehicles vs). rewrite fmap_cons. simpl. lia.
Qed.

(** ** The route builder keeps its invariant *)

Lemma buildStep_inv distances depot locations pool0 st location :
  Forall (λ v, Instance.remainingCapacity v = Instance.capacity v) pool0 →
  location ∈ locations →
  Location._id location ≠ Location._id depot →
  buildInv depot locations pool0 st →
  buildInv depot locations pool0 (buildStep distances depot st location).
Proof.
  intros Hfresh Hloc Hnd (Hwf & Hpool & Hlen & Hidx & Hrest).
  unfold buildStep.
  destruct (availableVehicles st !! vehicleIndex st) as [vehicle|] eqn:Hv;
    [|by repeat split].
  destruct (_ <? _)%float eqn:Hcap; [by repeat split|].
  assert (Hv0 : pool0 !! vehicleIndex st = Some vehicle)
    by (by rewrite <- Hrest).
  assert (Hrc : Instance.remainingCapacity vehicle = Instance.capacity vehicle).
  { rewrite Forall_lookup in Hfresh. by eapply Hfresh. }
  assert (Hin : Instance.vehicle vehicle ∈ Instance.vehicle <$> pool0).
  { apply list_elem_of_fmap_2. by eapply list_elem_of_lookup_2. }
  rewrite Hrc in Hcap. unfold Instance.capacity in Hcap.
  repeat split; simpl.
  - apply Forall_app. split; [done|]. constructor; [|constructor].
    exists (depotStop depot 0), [locationStop location 1], (depotStop depot 2).
    split_and!; simpl; try done.
    + constructor; [|constructor]. split; [done|].
      exists location. split_and!; try done. by exists (Instance.vehicle vehicle).
    + constructor.
    + by exists (Instance.vehicle vehicle).
  - rewrite list_fmap_insert. simpl. rewrite <- Hpool.
    apply list_insert_id. by rewrite list_lookup_fmap, Hv.
  - rewrite length_app. simpl. lia.
  - apply lookup_lt_Some in Hv0. lia.
  - intros k Hk. rewrite list_lookup_insert_ne by lia. apply Hrest. lia.
Qed.

Lemma nonDepot_Forall depot locations :
  Forall (λ loc, loc ∈ locations ∧ Location._id loc ≠ Location._id depot)
         (nonDepot depot locations).
Proof.
  apply Forall_forall. intros loc Hin.
  apply list_elem_of_filter in Hin as [? ?]. done.
Qed.

Lemma buildRoutes_inv distances depot locations vehicles :
  buildInv depot locations (expandVehicles vehicles)
    (buildRoutes distances depot (nonDepot depot locations) (expandVehicles vehicles)).
Proof.
  unfold buildRoutes.
  apply (fold_left_invariant _ _ _ _ _ (nonDepot_Forall depot locations)).
  - intros st loc Hst [Hin Hnd].
    apply buildStep_inv; auto using expandVehicles_fresh.
  - repeat split; simpl; auto with lia.
Qed.

(** ** The scanning loop finds the first route holding each stop *)

Lemma findRoutes_list_find id1 id2 rs i route1 route2 :
  findRoutes id1 id2 i rs route1 route2 =
  (orFound i route1 (list_find (λ r, containsLoc id1 r = true) rs),
   orFound i route2 (list_find (λ r, containsLoc id2 r = true) rs)).
Proof.
  revert i route1 route2.
  induction rs as [|route rs IH]; intros i route1 route2.
  - simpl. by destruct route1, route2.
  - cbn [findRoutes list_find]. 
    assert (Hshift : ∀ (o : option (nat * Route.t)),
      prod_map (λ k, (S i + k)%nat) id <$> o =
      prod_map (λ k, (i + k)%nat) id <$> (prod_map S id <$> o)).
    { intros [[k r]|]; simpl; [|done]. do 2 f_equal. unfold prod_map. simpl.
      f_equal. lia. }
    destruct (containsLoc id1 route) eqn:H1, (containsLoc id2 route) eqn:H2;
      destruct route1 as [p1|], route2 as [p2|]; simpl;
      repeat (rewrite bool_decide_eq_true_2 by eauto);
      repeat (rewrite bool_decide_eq_false_2 by (by intros [? ?]));
      simpl; try rewrite IH; simpl;
      repeat case_decide; try congruence; simpl;
      rewrite ?Hshift, ?Nat.add_0_r; try reflexivity.
Qed.

Lemma findRoutes_start id1 id2 rs :
  findRoutes id1 id2 0 rs None None =
  (list_find (λ r, containsLoc id1 r = true) rs,
   list_find (λ r, containsLoc id2 r = true) rs).
Proof.
  rewrite findRoutes_list_find. unfold orFound.
  f_equal; (destruct (list_find _ rs) as [[k r]|]; [|done]); reflexivity.
Qed.

(** ** What one merge step does *)

Lemma mergeStep_cases distances rs pool saving :
  mergeStep distances (rs, pool) saving = (rs, pool) ∨
  ∃ i1 r1 i2 r2 k vehicle first rest,
    rs !! i1 = Some r1 ∧ rs !! i2 = Some r2 ∧ i1 ≠ i2 ∧
    containsLoc (Location._id (Saving.loc1 saving)) r1 = true ∧
    containsLoc (Location._id (Saving.loc2 saving)) r2 = true ∧
    pool !! k = Some vehicle ∧
    Instance._id vehicle = Route.vehicleId r1 ∧
    (Instance.capacity vehicle
     <? Route.totalCapacity r1 + Route.totalCapacity r2)%float = false ∧
    Route.stops r1 = first :: rest ∧
    mergeStep distances (rs, pool) saving =
      (<[Nat.min i1 i2 := mergedRouteOf distances r1 r2 first]>
         (delete (Nat.max i1 i2) rs),
       <[k := Instance.mk (Instance.vehicle vehicle)
                (Instance.capacity vehicle
                 - (Route.totalCapacity r1 + Route.totalCapacity r2))%float]> pool).
Proof.
  unfold mergeStep. rewrite findRoutes_start.
  destruct (list_find _ rs) as [[i1 r1]|] eqn:F1; [|by left].
  destruct (list_find (λ r, containsLoc (Location._id (Saving.loc2 saving)) r = true) rs)
    as [[i2 r2]|] eqn:F2; [|by left].
  case_bool_decide as Hi; [by left|].
  destruct (list_find _ pool) as [[k vehicle]|] eqn:Fv; [|by left].
  destruct (_ <? _)%float eqn:Hcap; [by left|].
  destruct (Route.stops r1) as [|first rest] eqn:Hstops; [by left|].
  right. exists i1, r1, i2, r2, k, vehicle, first, rest.
  apply list_find_Some in F1 as (? & ? & _).
  apply list_find_Some in F2 as (? & ? & _).
  apply list_find_Some in Fv as (? & ? & _).
  unfold mergedRouteOf. rewrite Hstops.
  by split_and!.
Qed.

(** A merge never lengthens the route list, and shortens it by one route
    when it happens. *)
Lemma mergeStep_length distances rs pool saving :
  let rs' := (mergeStep distances (rs, pool) saving).1 in
  rs' = rs ∨ S (length rs') = length rs.
Proof.
  destruct (mergeStep_cases distances rs pool saving)
    as [->|(i1 & r1 & i2 & r2 & k & v & first & rest & H1 & H2 & Hne & _ & _ & _ & _ & _ & _ & ->)];
    [by left|right].
  simpl. rewrite length_insert, length_delete.
  - apply lookup_lt_Some in H1. lia.
  - destruct (Nat.max_spec i1 i2) as [[_ ->]|[_ ->]]; eauto.
Qed.

Lemma mergeStep_pool distances rs pool saving :
  Instance.vehicle <$> (mergeStep distances (rs, pool) saving).2
  = Instance.vehicle <$> pool.
Proof.
  destruct (mergeStep_cases distances rs pool saving)
    as [->|(i1 & r1 & i2 & r2 & k & v & first & rest & _ & _ & _ & _ & _ & Hk & _ & _ & _ & ->)];
    [done|].
  simpl. rewrite list_fmap_insert. simpl.
  apply list_insert_id. by rewrite list_lookup_fmap, Hk.
Qed.

(** A property of routes that merging two routes preserves is kept by a
    merge step. *)
Lemma mergeStep_Forall distances (P : Route.t → Prop) pool0 rs pool saving :
  (∀ r1 r2 v first rest,
      P r1 → P r2 → v ∈ pool0 →
      Vehicle._id v = Route.vehicleId r1 →
      (Vehicle.capacity v
       <? Route.totalCapacity r1 + Route.totalCapacity r2)%float = false →
      Route.stops r1 = first :: rest →
      P (mergedRouteOf distances r1 r2 first)) →
  Instance.vehicle <$> pool = pool0 →
  Forall P rs → Forall P (mergeStep distances (rs, pool) saving).1.
Proof.
  intros Hmerge Hpool Hrs.
  destruct (mergeStep_cases distances rs pool saving)
    as [->|(i1 & r1 & i2 & r2 & k & v & first & rest & H1 & H2 & _ & _ & _ & Hk & Hid & Hcap & Hst & ->)];
    [done|].
  simpl. apply Forall_insert; [by apply Forall_delete|].
  rewrite Forall_lookup in Hrs.
  apply (Hmerge r1 r2 (Instance.vehicle v) first rest); eauto.
  rewrite <- Hpool. apply list_elem_of_fmap. exists v. split; [done|].
  by eapply list_elem_of_lookup_2.
Qed.

Lemma mergeAll_Forall distances (P : Route.t → Prop) pool0 savings rs pool :
  (∀ r1 r2 v first rest,
      P r1 → P r2 → v ∈ pool0 →
      Vehicle._id v = Route.vehicleId r1 →
      (Vehicle.capacity v
       <? Route.totalCapacity r1 + Route.totalCapacity r2)%float = false →
      Route.stops r1 = first :: rest →
      P (mergedRouteOf distances r1 r2 first)) →
  Instance.vehicle <$> pool = pool0 →
  Forall P rs →
  Forall P (fold_left (mergeStep distances) savings (rs, pool)).1.
Proof.
  intros Hmerge.
  revert rs pool. induction savings as [|s savings IH]; intros rs pool Hpool Hrs;
    [done|].
  cbn [fold_left]. destruct (mergeStep distances (rs, pool) s) as [rs' pool'] eqn:E.
  apply IH.
  - rewrite <- Hpool. change pool' with (rs', pool').2. rewrite <- E.
    apply mergeStep_pool.
  - change rs' with (rs', pool').1. rewrite <- E.
    by eapply mergeStep_Forall.
Qed.

Lemma mergeAll_length distances savings rs pool :
  (length (fold_left (mergeStep distances) savings (rs, pool)).1 ≤ length rs)%nat.
Proof.
  revert rs pool. induction savings as [|s savings IH]; intros rs pool; [done|].
  cbn [fold_left]. destruct (mergeStep distances (rs, pool) s) as [rs' pool'] eqn:E.
  etrans; [apply IH|].
  pose proof (mergeStep_length distances rs pool s) as Hl. rewrite E in Hl.
  simpl in Hl. destruct Hl as [->|Hl]; lia.
Qed.

(** With fewer than two routes there is nothing to merge. *)
Lemma mergeAll_short distances savings rs pool :
  (length rs ≤ 1)%nat →
  (fold_left (mergeStep distances) savings (rs, pool)).1 = rs.
Proof.
  intros Hlen. revert pool. induction savings as [|s savings IH]; intros pool;
    [done|].
  cbn [fold_left].
  destruct (mergeStep_cases distances rs pool s)
    as [->|(i1 & r1 & i2 & r2 & k & v & first & rest & H1 & H2 & Hne & _)];
    [apply IH|].
  apply lookup_lt_Some in H1, H2. lia.
Qed.

(** ** Merging keeps routes well formed *)

Lemma with_order_routedStop depot locations fleet s o :
  routedStop depot locations fleet s →
  routedStop depot locations fleet (Stop.with_order s o).
Proof. by destruct s. Qed.

Lemma mergedStops_shape first first' mid1 last1 mid2 last2 :
  ∃ g : nat → nat,
  mergedStops first (first' :: mid1 ++ [last1]) (first' :: mid2 ++ [last2]) =
  Stop.with_order first 0
    :: imap (λ o s, Stop.with_order s (g o)) (mid1 ++ mid2)
    ++ [Stop.with_order first (S (length (mid1 ++ mid2)))].
Proof.
  exists S. unfold mergedStops. rewrite !sliceInner_middle.
  rewrite imap_cons. f_equal.
  rewrite (assoc_L (++)), imap_app. simpl. do 3 f_equal. lia.
Qed.

Lemma mergedRoute_wf distances depot locations fleet r1 r2 v first rest :
  wfRoute depot locations fleet r1 →
  wfRoute depot locations fleet r2 →
  v ∈ fleet →
  Vehicle._id v = Route.vehicleId r1 →
  (Vehicle.capacity v
   <? Route.totalCapacity r1 + Route.totalCapacity r2)%float = false →
  Route.stops r1 = first :: rest →
  wfRoute depot locations fleet (mergedRouteOf distances r1 r2 first).
Proof.
  intros (f1 & mid1 & l1 & Hs1 & Hf1 & _ & Hmid1 & Hsum1 & _)
         (f2 & mid2 & l2 & Hs2 & _ & _ & Hmid2 & Hsum2 & _) Hv Hid Hcap Hst.
  rewrite Hs1 in Hst. injection Hst as -> _.
  unfold mergedRouteOf. rewrite Hs1, Hs2.
  destruct (mergedStops_shape first first mid1 l1 mid2 l2) as [g Hshape].
  assert (Hs2' : mergedStops first (first :: mid1 ++ [l1]) (f2 :: mid2 ++ [l2])
                 = mergedStops first (first :: mid1 ++ [l1]) (first :: mid2 ++ [l2])).
  { unfold mergedStops. by rewrite !sliceInner_middle. }
  rewrite Hs2', Hshape.
  eexists _, _, _. split; [reflexivity|]. simpl.
  split_and!; try done.
  - apply Forall_imap with (P := routedStop depot locations fleet).
    + intros. by apply with_order_routedStop.
    + by apply Forall_app.
  - rewrite (fmap_imap_same Stop.demand Stop.demand) by done.
    rewrite fmap_app. by constructor.
  - by exists v.
Qed.

Lemma filter_routedStops depot locations fleet mid :
  Forall (routedStop depot locations fleet) mid →
  filter (λ s, Stop.locationId s ≠ Location._id depot) mid = mid.
Proof.
  induction 1 as [|s mid' [Hs' _] _ IH]; [done|].
  rewrite filter_cons_True by exact Hs'. by rewrite IH.
Qed.

Lemma wfRoute_demand depot locations fleet r :
  wfRoute depot locations fleet r →
  demandSum (routeDemands depot r) (Route.totalCapacity r).
Proof.
  intros (first & mid & last & Hs & Hf & Hl & Hmid & Hsum & _).
  unfold routeDemands. rewrite Hs.
  rewrite filter_cons_False by (intros ?; congruence).
  rewrite filter_app, filter_cons_False by (intros ?; congruence).
  rewrite filter_nil, app_nil_r.
  by rewrite (filter_routedStops _ _ _ _ Hmid).
Qed.

(** Every route of the result is well formed: depot, routed stops, depot;
    its [totalCapacity] is a sum of the demands of its stops and is not
    greater than the capacity of a vehicle of the pool that carries the
    route's [vehicleId]. *)
Lemma clarkeWright_wf `{Engine} vehicles locations depot :
  Forall (wfRoute depot locations (Instance.vehicle <$> expandVehicles vehicles))
         (clarkeWrightAlgorithm vehicles locations depot).
Proof.
  unfold clarkeWrightAlgorithm.
  destruct (buildRoutes_inv (distanceTable locations) depot locations vehicles)
    as (Hwf & Hpool & _).
  eapply mergeAll_Forall; [|exact Hpool|exact Hwf].
  intros. by eapply mergedRoute_wf.
Qed.

Lemma clarkeWright_length `{Engine} vehicles locations depot :
  (length (clarkeWrightAlgorithm vehicles locations depot)
   ≤ length (expandVehicles vehicles))%nat.
Proof.
  unfold clarkeWrightAlgorithm.
  destruct (buildRoutes_inv (distanceTable locations) depot locations vehicles)
    as (_ & _ & Hlen & Hidx & _).
  etrans; [apply mergeAll_length|]. lia.
Qed.

(** ** The distance formula *)

Section Symmetry.
Context `{Engine}.
Import Binary64.
Local Open Scope float_scope.

(** [Math.sin] is odd. *)
Hypothesis sin_odd : ∀ x, Math_sin (- x) = - Math_sin x.

Lemma degreeDelta_swap x y :
  (x - y) * Math_PI / 180 = (y - x) * Math_PI / 180 ∨
  (x - y) * Math_PI / 180 = - ((y - x) * Math_PI / 180).
Proof.
  destruct (sub_swap y x) as [->| ->]; [right|by left].
  by rewrite mul_opp_l, div_opp_l.
Qed.

Lemma calculateDistance_swap lat1 lon1 lat2 lon2 :
  calculateDistance lat1 lon1 lat2 lon2 = calculateDistance lat2 lon2 lat1 lon1.
Proof.
  unfold calculateDistance. cbv zeta.
  rewrite (mul_comm (Math_cos (lat1 * Math_PI / 180))).
  destruct (degreeDelta_swap lat1 lat2) as [->| ->],
           (degreeDelta_swap lon1 lon2) as [->| ->];
    repeat first [ rewrite div_opp_l | rewrite sin_odd | rewrite mul_opp_opp
                 | rewrite mul_opp_r | rewrite mul_opp_l | rewrite opp_involutive ];
    reflexivity.
Qed.

End Symmetry.

Section SelfDistance.
Context `{Engine}.
Import Binary64.
Local Open Scope float_scope.

(** ECMAScript fixes [Math.sin(+0) = +0] and [Math.atan2(+0, x) = +0] for
    [x > 0]; the cosine of a finite number is at most 1 in magnitude (of
    an infinity or NaN it is NaN). *)
Hypothesis sin_zero : Math_sin 0 = 0.
Hypothesis atan2_zero : Math_atan2 0 1 = 0.
Hypothesis cos_bounded :
  ∀ x, is_finite x = true → (abs (Math_cos x) <=? 1) = true.

Lemma calculateDistance_self lat lon :
  (abs lat <=? 90) = true → is_finite lon = true →
  calculateDistance lat lon lat lon = 0.
Proof.
  intros Hlat Hlon. unfold calculateDistance. cbv zeta.
  assert (is_finite lat = true) as Hfin.
  { apply (is_finite_below 7).
    by apply (abs_leb_below lat 90 false 6333186975989760 (-46)). }
  rewrite !sub_diag by done.
  change (0 * Math_PI / 180 / 2) with 0.
  rewrite sin_zero, square_mul_zero
    by (apply cos_bounded, degrees_to_radians_finite, Hlat).
  change (0 * 0 + 0 * 0) with 0. change (sqrt (1 - 0)) with 1.
  change (sqrt 0) with 0. by rewrite atan2_zero.
Qed.

End SelfDistance.

(** ** The two-stop scenarios *)

(** The orders in which the three locations can come. *)
Lemma scenario_orders locations :
  scenario ≡ₚ locations →
  locations ∈ [[depot0; stopA; stopB]; [stopA; depot0; stopB]; [stopA; stopB; depot0];
               [depot0; stopB; stopA]; [stopB; depot0; stopA]; [stopB; stopA; depot0]].
Proof. intros Hp. by apply permutations_Permutation in Hp. Qed.

Lemma scenario_built_one_van_any `{Engine} locations :
  scenario ≡ₚ locations →
  ∃ first,
    head (nonDepot depot0 locations) = Some first ∧
    routes (buildRoutes (distanceTable locations) depot0 (nonDepot depot0 locations)
              (expandVehicles [van 10 1]))
    = [Route.mk "v"%string "Van"%string
         [depotStop depot0 0; locationStop first 1; depotStop depot0 2]
         (distance depot0 first * 2)%float 5].
Proof.
  intros Hp%scenario_orders.
  repeat (apply elem_of_cons in Hp as [->|Hp]); [..|by apply elem_of_nil in Hp];
    eexists; (split; [vm_compute; reflexivity|]); vm_compute; reflexivity.
Qed.

Lemma scenario_built_small_vans_any `{Engine} locations count :
  scenario ≡ₚ locations →
  routes (buildRoutes (distanceTable locations) depot0 (nonDepot depot0 locations)
            (expandVehicles [van 4 count]))
  = [].
Proof.
  intros Hp%scenario_orders.
  unfold expandVehicles. cbn [flat_map Vehicle.count van].
  repeat (apply elem_of_cons in Hp as [->|Hp]); [..|by apply elem_of_nil in Hp];
    destruct (Z.to_nat count) as [|n]; reflexivity.
Qed.

Lemma scenario_built_one_van `{Engine} :
  routes (buildRoutes (distanceTable scenario) depot0 (nonDepot depot0 scenario)
            (expandVehicles [van 10 1]))
  = [Route.mk "v"%string "Van"%string
       [depotStop depot0 0; locationStop stopA 1; depotStop depot0 2]
       (calculateDistance 0 0 0 1 * 2)%float 5].
Proof. vm_compute. reflexivity. Qed.

Lemma scenario_built_small_vans `{Engine} count :
  routes (buildRoutes (distanceTable scenario) depot0 (nonDepot depot0 scenario)
            (expandVehicles [van 4 count]))
  = [].
Proof.
  unfold expandVehicles. cbn [flat_map Vehicle.count van].
  destruct (Z.to_nat count) as [|n]; reflexivity.
Qed.

(** ** More on maps and lists *)

Lemma fold_insert_is_Some {X V} (k : X → string) (v : X → V)
  (l : list X) (m0 : gmap string V) (key : string) :
  is_Some (fold_left (λ m y, <[k y := v y]> m) l m0 !! key)
  ↔ key ∈ k <$> l ∨ is_Some (m0 !! key).
Proof.
  revert m0. induction l as [|y l IH]; intros m0; simpl.
  - rewrite elem_of_nil. tauto.
  - rewrite IH, elem_of_cons, lookup_insert_is_Some.
    destruct (decide (k y = key)) as [Heq|Hne]; [by split; auto|].
    split; [intros [?|[?|[_ ?]]]|intros [[?|?]|?]]; auto; congruence.
Qed.

Lemma fold_insert_lookup_inv {X V} (k : X → string) (v : X → V)
  (l : list X) (m0 : gmap string V) (key : string) (val : V) :
  fold_left (λ m y, <[k y := v y]> m) l m0 !! key = Some val →
  (∃ x, x ∈ l ∧ k x = key ∧ val = v x) ∨ m0 !! key = Some val.
Proof.
  revert m0. induction l as [|y l IH]; intros m0; simpl; [by right|].
  intros [(x & Hx & Hk & ->)|Hm0]%IH.
  - left. exists x. by rewrite elem_of_cons; auto.
  - destruct (decide (k y = key)) as [Heq|Hne].
    + rewrite <- Heq, lookup_insert_eq in Hm0. injection Hm0 as <-.
      left. exists y. by rewrite elem_of_cons; auto.
    + rewrite lookup_insert_ne in Hm0 by done. by right.
Qed.

Lemma find_first {A} (f : A → bool) (l : list A) x :
  List.find f l = Some x →
  f x = true ∧
  ∃ before after, l = before ++ x :: after ∧ Forall (λ y, f y = false) before.
Proof.
  induction l as [|y l IH]; [done|]. simpl.
  destruct (f y) eqn:Hy.
  - intros [= <-]. split; [done|]. by exists [], l.
  - intros Hx. destruct (IH Hx) as (Hfx & before & after & -> & Hb).
    split; [done|]. exists (y :: before), after. split; [done|]. by constructor.
Qed.

Lemma find_none_Forall {A} (f : A → bool) (l : list A) :
  List.find f l = None → Forall (λ y, f y = false) l.
Proof.
  induction l as [|y l IH]; [constructor|]. simpl.
  destruct (f y) eqn:Hy; [done|]. intros Hx. constructor; auto.
Qed.

Lemma length_flat_map_const {A B} (f : A → list B) (l : list A) (c : nat) :
  Forall (λ x, length (f x) = c) l → length (flat_map f l) = (c * length l)%nat.
Proof.
  induction 1 as [|x l Hx _ IH]; simpl; [lia|]. rewrite length_app, Hx, IH. lia.
Qed.

Lemma length_flat_map_guard {A B} (P : A → Prop) `{∀ x, Decision (P x)}
  (f : A → list B) (l : list A) (c : nat) :
  Forall (λ x, if decide (P x) then length (f x) = c else f x = []) l →
  length (flat_map f l) = (c * length (filter P l))%nat.
Proof.
  induction 1 as [|x l Hx _ IH]; simpl; [lia|].
  rewrite length_app, IH, filter_cons. destruct (decide (P x)).
  - rewrite Hx. simpl. lia.
  - rewrite Hx. simpl. lia.
Qed.

Lemma length_filter_others {A B} `{EqDecision B} (f : A → B) (l : list A) a :
  NoDup (f <$> l) → a ∈ l →
  S (length (filter (λ x, f a ≠ f x) l)) = length l.
Proof.
  intros Hnd Ha.
  destruct (NoDup_fmap_split f l a Hnd Ha) as (l1 & l2 & -> & H1 & H2).
  rewrite filter_app, filter_cons_False by (intros ?; congruence).
  assert (Hall : ∀ k, Forall (λ y, f y ≠ f a) k →
                      filter (λ x, f a ≠ f x) k = k).
  { induction 1 as [|y k Hy _ IH]; [done|].
    rewrite filter_cons_True by congruence. by rewrite IH. }
  rewrite !Hall by done. rewrite !length_app. simpl. lia.
Qed.

Lemma nonDepot_NoDup depot locations :
  NoDup (Location._id <$> locations) →
  NoDup (Location._id <$> nonDepot depot locations).
Proof.
  intros Hnd. eapply sublist_NoDup; [exact Hnd|].
  apply fmap_sublist, sublist_filter.
Qed.

Lemma savingsFor_length distances locations depot loc1 :
  NoDup (Location._id <$> locations) →
  loc1 ∈ locations → Location._id loc1 ≠ Location._id depot →
  S (length (savingsFor distances locations depot loc1))
  = length (nonDepot depot locations).
Proof.
  intros Hnd Hin Hd.
  rewrite <- (length_filter_others Location._id (nonDepot depot locations) loc1);
    [|by apply nonDepot_NoDup|by apply list_elem_of_filter].
  f_equal. unfold savingsFor, nonDepot. rewrite list_filter_filter.
  rewrite (length_flat_map_guard
             (λ x, Location._id loc1 ≠ Location._id x
                   ∧ Location._id x ≠ Location._id depot) _ _ 1); [lia|].
  apply Forall_forall. intros loc2 _. unfold isDepotId.
  destruct (decide _) as [[? ?]|Hn].
  - by rewrite !bool_decide_eq_false_2.
  - destruct (_ || _) eqn:E; [done|].
    apply orb_false_elim in E as [E1%bool_decide_eq_false E2%bool_decide_eq_false].
    by destruct Hn.
Qed.

Lemma computeSavings_length distances locations depot :
  NoDup (Location._id <$> locations) →
  length (computeSavings distances locations depot)
  = (length (nonDepot depot locations) * (length (nonDepot depot locations) - 1))%nat.
Proof.
  intros Hnd. unfold computeSavings.
  rewrite (length_flat_map_guard
             (λ x, Location._id x ≠ Location._id depot) _ _
             (length (nonDepot depot locations) - 1)).
  - unfold nonDepot. lia.
  - apply Forall_forall. intros loc1 Hin. unfold isDepotId.
    destruct (decide _) as [Hd|Hd].
    + rewrite bool_decide_eq_false_2 by done.
      pose proof (savingsFor_length distances locations depot loc1 Hnd Hin Hd). lia.
    + rewrite bool_decide_eq_true_2; [done|]. by destruct (decide (Location._id loc1 = Location._id depot)).
Qed.

Lemma insertSaving_stable (k : float) a l :
  filter (λ e, (Saving.saving e =? k)%float = true) (insertSaving a l)
  = filter (λ e, (Saving.saving e =? k)%float = true) (a :: l).
Proof.
  induction l as [|b l IH]; [done|]. simpl.
  destruct (comparatorPositive a b) eqn:Hc; [|done].
  rewrite (filter_cons _ b (insertSaving a l)), IH, !filter_cons.
  destruct (decide ((Saving.saving a =? k)%float = true)) as [Ha|Ha],
           (decide ((Saving.saving b =? k)%float = true)) as [Hb|Hb]; try done.
  unfold comparatorPositive in Hc.
  by rewrite (Binary64.sub_equal_not_positive _ _ k) in Hc.
Qed.

Lemma buildFold_skip_all distances depot v pool locs :
  Instance.remainingCapacity v = Instance.capacity v →
  Forall (λ l, (Instance.capacity v <? Location.demand l)%float = true) locs →
  fold_left (buildStep distances depot) locs (mkBuild [] (v :: pool) 0)
  = mkBuild [] (v :: pool) 0.
Proof.
  intros Hrc. induction 1 as [|l locs Hl _ IH]; [done|].
  cbn [fold_left]. unfold buildStep at 2. simpl.
  by rewrite Hrc, Hl.
Qed.

(** ** The routed stops are kept by merging *)

Lemma routedIds_merged distances r1 r2 first mid1 last1 first2 mid2 last2 :
  Route.stops r1 = first :: mid1 ++ [last1] →
  Route.stops r2 = first2 :: mid2 ++ [last2] →
  routedIds (mergedRouteOf distances r1 r2 first) = routedIds r1 ++ routedIds r2.
Proof.
  intros Hs1 Hs2. unfold routedIds, mergedRouteOf. simpl. rewrite Hs1, Hs2.
  unfold mergedStops. rewrite !sliceInner_middle.
  rewrite imap_cons, (assoc_L (++)), imap_app. simpl.
  rewrite sliceInner_middle.
  rewrite (fmap_imap_same Stop.locationId Stop.locationId) by done.
  by rewrite fmap_app.
Qed.

Lemma insert_delete_Permutation {A} (l : list A) i x y :
  l !! i = Some x → <[i := y]> l ≡ₚ y :: delete i l.
Proof.
  intros Hi. rewrite insert_take_drop by (by eapply lookup_lt_Some).
  rewrite delete_take_drop. by rewrite Permutation_middle.
Qed.

Lemma mergeStep_routed distances depot locations fleet rs pool saving :
  Forall (wfRoute depot locations fleet) rs →
  allRoutedIds (mergeStep distances (rs, pool) saving).1 ≡ₚ allRoutedIds rs.
Proof.
  intros Hwf.
  destruct (mergeStep_cases distances rs pool saving)
    as [->|(i1 & r1 & i2 & r2 & k & v & first & rest & H1 & H2 & Hne & _ & _ & _ & _ & _ & Hst & ->)];
    [done|].
  rewrite Forall_lookup in Hwf.
  destruct (Hwf _ _ H1) as (f1 & mid1 & l1 & Hs1 & _).
  destruct (Hwf _ _ H2) as (f2 & mid2 & l2 & Hs2 & _).
  assert (f1 = first) as -> by congruence.
  pose proof (routedIds_merged distances r1 r2 first mid1 l1 f2 mid2 l2 Hs1 Hs2) as Hm.
  unfold allRoutedIds. simpl.
  destruct (decide (i1 < i2)%nat) as [Hlt|Hge].
  - rewrite Nat.min_l, Nat.max_r by lia.
    assert (Hd : delete i2 rs !! i1 = Some r1) by (by rewrite list_lookup_delete_lt).
    rewrite (insert_delete_Permutation _ _ _ _ Hd).
    rewrite (delete_Permutation rs i2 r2 H2) at 2.
    rewrite (delete_Permutation (delete i2 rs) i1 r1 Hd) at 2.
    rewrite !bind_cons, Hm. rewrite !(assoc_L (++)).
    f_equiv. apply Permutation_app_comm.
  - rewrite Nat.min_r, Nat.max_l by lia.
    assert (Hd : delete i1 rs !! i2 = Some r2)
      by (rewrite list_lookup_delete_lt by lia; done).
    rewrite (insert_delete_Permutation _ _ _ _ Hd).
    rewrite (delete_Permutation rs i1 r1 H1) at 2.
    rewrite (delete_Permutation (delete i1 rs) i2 r2 Hd) at 2.
    rewrite !bind_cons, Hm. by rewrite !(assoc_L (++)).
Qed.

Lemma mergeAll_routed distances depot locations fleet savings rs pool :
  Instance.vehicle <$> pool = fleet →
  Forall (wfRoute depot locations fleet) rs →
  allRoutedIds (fold_left (mergeStep distances) savings (rs, pool)).1
  ≡ₚ allRoutedIds rs.
Proof.
  revert rs pool. induction savings as [|s savings IH]; intros rs pool Hpool Hwf;
    [done|].
  cbn [fold_left].
  pose proof (mergeStep_routed distances depot locations fleet rs pool s Hwf) as Hr.
  pose proof (mergeStep_pool distances rs pool s) as Hp.
  assert (Hwf' : Forall (wfRoute depot locations fleet)
                   (mergeStep distances (rs, pool) s).1).
  { eapply mergeStep_Forall; [|exact Hpool|exact Hwf].
    intros. by eapply mergedRoute_wf. }
  destruct (mergeStep distances (rs, pool) s) as [rs' pool']. simpl in *.
  rewrite IH; [done| |done]. by rewrite Hp.
Qed.

Lemma buildFold_routed distances depot locs st :
  ∃ sub, sub `sublist_of` locs ∧
    allRoutedIds (routes (fold_left (buildStep distances depot) locs st))
    = allRoutedIds (routes st) ++ (Location._id <$> sub).
Proof.
  revert st. induction locs as [|loc locs IH]; intros st.
  - exists []. split; [done|]. simpl. by rewrite app_nil_r.
  - cbn [fold_left].
    destruct (IH (buildStep distances depot st loc)) as (sub & Hsub & ->).
    unfold buildStep.
    destruct (availableVehicles st !! vehicleIndex st) as [vehicle|];
      [destruct (_ <? _)%float|].
    + exists sub. split; [by apply sublist_cons|done].
    + exists (loc :: sub). split; [by apply sublist_skip|].
      simpl. unfold allRoutedIds. rewrite bind_app. simpl.
      by rewrite <- (assoc_L (++)).
    + exists sub. split; [by apply sublist_cons|done].
Qed.

Lemma clarkeWright_routed `{Engine} vehicles locations depot :
  ∃ sub, sub `sublist_of` nonDepot depot locations ∧
    allRoutedIds (clarkeWrightAlgorithm vehicles locations depot)
    ≡ₚ Location._id <$> sub.
Proof.
  unfold clarkeWrightAlgorithm.
  destruct (buildRoutes_inv (distanceTable locations) depot locations vehicles)
    as (Hwf & Hpool & _).
  destruct (buildFold_routed (distanceTable locations) depot
              (nonDepot depot locations) (mkBuild [] (expandVehicles vehicles) 0))
    as (sub & Hsub & Hb).
  exists sub. split; [done|].
  rewrite (mergeAll_routed _ depot locations _ _ _ _ Hpool Hwf).
  unfold buildRoutes. by rewrite Hb.
Qed.

(** ** What the route builder assigns *)

Lemma buildFold_all distances depot pool0 locs st :
  Forall (λ v, Instance.remainingCapacity v = Instance.capacity v) pool0 →
  (∀ k, (vehicleIndex st ≤ k)%nat → availableVehicles st !! k = pool0 !! k) →
  (length locs + vehicleIndex st ≤ length pool0)%nat →
  (∀ v l, v ∈ pool0 → l ∈ locs →
          (Instance.capacity v <? Location.demand l)%float = false) →
  allRoutedIds (routes (fold_left (buildStep distances depot) locs st))
  = allRoutedIds (routes st) ++ (Location._id <$> locs).
Proof.
  intros Hfresh. revert st.
  induction locs as [|loc locs IH]; intros st Hrest Hlen Hfit.
  - simpl. by rewrite app_nil_r.
  - cbn [fold_left]. simpl in Hlen.
    destruct (lookup_lt_is_Some_2 pool0 (vehicleIndex st) ltac:(lia)) as [vehicle Hv0].
    assert (Hv : availableVehicles st !! vehicleIndex st = Some vehicle)
      by (by rewrite Hrest).
    assert (Hin : vehicle ∈ pool0) by (by eapply list_elem_of_lookup_2).
    assert (Hrc : Instance.remainingCapacity vehicle = Instance.capacity vehicle).
    { rewrite Forall_forall in Hfresh. by apply Hfresh. }
    assert (Hle : (Instance.remainingCapacity vehicle <? Location.demand loc)%float
                  = false)
      by (rewrite Hrc; apply Hfit; [done|left]).
    rewrite IH.
    + unfold buildStep. rewrite Hv, Hle.
      simpl. unfold allRoutedIds. rewrite bind_app. simpl.
      by rewrite <- (assoc_L (++)).
    + intros k Hk. unfold buildStep in *. rewrite Hv, Hle in *. simpl in *.
      rewrite list_lookup_insert_ne by lia. apply Hrest. lia.
    + unfold buildStep. rewrite Hv, Hle. simpl. lia.
    + intros v l Hv' Hl. apply Hfit; [done|by right].
Qed.

Lemma buildFold_vehicles distances depot pool0 locs st :
  (∀ k, (vehicleIndex st ≤ k)%nat → availableVehicles st !! k = pool0 !! k) →
  Route.vehicleId <$> routes st = Instance._id <$> take (vehicleIndex st) pool0 →
  let st' := fold_left (buildStep distances depot) locs st in
  Route.vehicleId <$> routes st' = Instance._id <$> take (vehicleIndex st') pool0.
Proof.
  revert st. induction locs as [|loc locs IH]; intros st Hrest Hids; [done|].
  cbn [fold_left]. apply IH.
  - intros k Hk. unfold buildStep in *.
    destruct (availableVehicles st !! vehicleIndex st) as [vehicle|] eqn:Hv;
      [destruct (_ <? _)%float|]; simpl in *; try (by apply Hrest).
    rewrite list_lookup_insert_ne by lia. apply Hrest. lia.
  - unfold buildStep.
    destruct (availableVehicles st !! vehicleIndex st) as [vehicle|] eqn:Hv;
      [destruct (_ <? _)%float|]; simpl; try done.
    rewrite Hrest in Hv by lia.
    rewrite (take_S_r _ _ _ Hv), !fmap_app, Hids. done.
Qed.

(** ** The stops of a route *)

Lemma renumber_erase (l l' : list Stop.t) :
  (λ s, Stop.with_order s 0) <$> l = (λ s, Stop.with_order s 0) <$> l' →
  imap (λ order stop, Stop.with_order stop order) l
  = imap (λ order stop, Stop.with_order stop order) l'.
Proof.
  intros Heq.
  assert (Hone : ∀ k : list Stop.t,
    imap (λ order stop, Stop.with_order stop order) k
    = imap (λ order stop, Stop.with_order stop order)
           ((λ s, Stop.with_order s 0) <$> k)).
  { intros k. rewrite imap_fmap. by apply imap_ext. }
  by rewrite (Hone l), (Hone l'), Heq.
Qed.

Lemma sliceInner_routeStops depot locs :
  (λ s, Stop.with_order s 0) <$> sliceInner (routeStops depot locs)
  = (λ l, locationStop l 0) <$> locs.
Proof.
  unfold routeStops. rewrite imap_cons, imap_app. simpl.
  rewrite sliceInner_middle.
  rewrite (fmap_imap_same (λ s, Stop.with_order s 0) (λ s, Stop.with_order s 0))
    by done.
  rewrite <- list_fmap_compose. by apply list_fmap_ext.
Qed.

Lemma mergedStops_routeStops depot locs1 locs2 :
  mergedStops (depotStop depot 0) (routeStops depot locs1) (routeStops depot locs2)
  = routeStops depot (locs1 ++ locs2).
Proof.
  unfold mergedStops. unfold routeStops at 3. apply renumber_erase.
  rewrite !fmap_cons, !fmap_app, !sliceInner_routeStops. simpl.
  rewrite <- !list_fmap_compose, <- (assoc_L (++)). f_equal.
Qed.

Lemma buildStep_visits distances depot locations st location :
  location ∈ locations →
  Location._id location ≠ Location._id depot →
  Forall (visitsLocations depot locations) (routes st) →
  Forall (visitsLocations depot locations)
         (routes (buildStep distances depot st location)).
Proof.
  intros Hloc Hnd Hst. unfold buildStep.
  destruct (availableVehicles st !! vehicleIndex st) as [vehicle|];
    [destruct (_ <? _)%float|]; simpl; try done.
  apply Forall_app. split; [done|]. apply Forall_singleton.
  exists [location]. split_and!; try done.
  - by apply Forall_singleton.
  - constructor.
Qed.

Lemma clarkeWright_visits `{Engine} vehicles locations depot :
  Forall (visitsLocations depot locations)
         (clarkeWrightAlgorithm vehicles locations depot).
Proof.
  unfold clarkeWrightAlgorithm.
  eapply (mergeAll_Forall _ (visitsLocations depot locations)); [|reflexivity|].
  - intros r1 r2 v first rest (locs1 & Hne1 & Hl1 & Hs1 & Hd1)
      (locs2 & Hne2 & Hl2 & Hs2 & Hd2) _ _ _ Hst.
    assert (first = depotStop depot 0) as ->.
    { rewrite Hs1 in Hst. unfold routeStops in Hst. rewrite imap_cons in Hst.
      by injection Hst as <- _. }
    exists (locs1 ++ locs2). split_and!.
    + by destruct locs1.
    + by apply Forall_app.
    + unfold mergedRouteOf. simpl. rewrite Hs1, Hs2.
      apply mergedStops_routeStops.
    + unfold mergedRouteOf. simpl. rewrite fmap_app. by constructor.
  - unfold buildRoutes.
    apply (fold_left_invariant _
             (λ st, Forall (visitsLocations depot locations) (routes st))
             _ _ _ (nonDepot_Forall depot locations)); [|constructor].
    intros st loc Hst [Hin Hnd]. by apply buildStep_visits.
Qed.

Lemma routeStops_order depot locs :
  Stop.order <$> routeStops depot locs = seq 0 (length (routeStops depot locs)).
Proof.
  unfold routeStops. rewrite fmap_imap, length_imap.
  rewrite (imap_ext _ (λ j _, id j)) by done.
  rewrite imap_seq_0. by rewrite list_fmap_id.
Qed.

(** ** Route counts and vehicle identifiers *)

Lemma buildFold_exhausted distances depot locs st :
  availableVehicles st !! vehicleIndex st = None →
  fold_left (buildStep distances depot) locs st = st.
Proof.
  intros Hnone. induction locs as [|loc locs IH]; [done|].
  cbn [fold_left]. unfold buildStep at 2. by rewrite Hnone.
Qed.

Lemma buildFold_length distances depot locs st :
  (length (routes (fold_left (buildStep distances depot) locs st))
   ≤ length (routes st) + length locs)%nat.
Proof.
  revert st. induction locs as [|loc locs IH]; intros st; [simpl; lia|].
  cbn [fold_left]. etrans; [apply IH|]. unfold buildStep.
  destruct (availableVehicles st !! vehicleIndex st) as [vehicle|];
    [destruct (_ <? _)%float|]; simpl; rewrite ?length_app; simpl; lia.
Qed.

Lemma expandVehicles_none vehicles :
  Forall (λ v, Vehicle.count v ≤ 0) vehicles → expandVehicles vehicles = [].
Proof.
  induction 1 as [|v vs Hv _ IH]; [done|].
  cbn [expandVehicles flat_map]. fold (expandVehicles vs). rewrite IH.
  by replace (Z.to_nat (Vehicle.count v)) with 0%nat by lia.
Qed.

Lemma mergeStep_vehicleIds distances rs pool saving :
  Route.vehicleId <$> (mergeStep distances (rs, pool) saving).1
  ⊆+ Route.vehicleId <$> rs.
Proof.
  destruct (mergeStep_cases distances rs pool saving)
    as [->|(i1 & r1 & i2 & r2 & k & v & first & rest & H1 & H2 & Hne & _ & _ & _ & _ & _ & _ & ->)];
    [done|].
  simpl.
  assert (Hperm : ∀ i j ri rj, rs !! i = Some ri → rs !! j = Some rj → (i < j)%nat →
            Route.vehicleId r1 = Route.vehicleId ri ∨
            Route.vehicleId r1 = Route.vehicleId rj →
            Route.vehicleId <$> <[i := mergedRouteOf distances r1 r2 first]> (delete j rs)
            ⊆+ Route.vehicleId <$> rs).
  { intros i j ri rj Hi Hj Hlt Hid.
    assert (Hd : delete j rs !! i = Some ri) by (by rewrite list_lookup_delete_lt).
    rewrite (insert_delete_Permutation _ _ _ _ Hd).
    rewrite (delete_Permutation rs j rj Hj) at 2.
    rewrite (delete_Permutation (delete j rs) i ri Hd) at 2.
    rewrite !fmap_cons. simpl. destruct Hid as [-> | ->].
    - apply submseteq_cons, submseteq_skip. done.
    - apply submseteq_skip, submseteq_cons. done. }
  destruct (decide (i1 < i2)%nat) as [Hlt|Hge].
  - rewrite Nat.min_l, Nat.max_r by lia. eapply Hperm; eauto.
  - rewrite Nat.min_r, Nat.max_l by lia. eapply Hperm; eauto with lia.
Qed.

Lemma mergeAll_vehicleIds distances savings rs pool :
  Route.vehicleId <$> (fold_left (mergeStep distances) savings (rs, pool)).1
  ⊆+ Route.vehicleId <$> rs.
Proof.
  revert rs pool. induction savings as [|s savings IH]; intros rs pool; [done|].
  cbn [fold_left].
  pose proof (mergeStep_vehicleIds distances rs pool s) as Hs.
  destruct (mergeStep distances (rs, pool) s) as [rs' pool'].
  etrans; [apply IH|exact Hs].
Qed.

Lemma buildFold_index distances depot locs st :
  vehicleIndex st = length (routes st) →
  let st' := fold_left (buildStep distances depot) locs st in
  vehicleIndex st' = length (routes st').
Proof.
  revert st. induction locs as [|loc locs IH]; intros st Hidx; [done|].
  cbn [fold_left]. apply IH. unfold buildStep.
  destruct (availableVehicles st !! vehicleIndex st) as [vehicle|];
    [destruct (_ <? _)%float|]; simpl; rewrite ?length_app; simpl; lia.
Qed.

Lemma buildFold_grows distances depot locs st :
  (length (routes st)
   ≤ length (routes (fold_left (buildStep distances depot) locs st)))%nat.
Proof.
  revert st. induction locs as [|loc locs IH]; intros st; [done|].
  cbn [fold_left]. etrans; [|apply IH]. unfold buildStep.
  destruct (availableVehicles st !! vehicleIndex st) as [vehicle|];
    [destruct (_ <? _)%float|]; simpl; rewrite ?length_app; simpl; lia.
Qed.

Lemma buildFold_some_fit distances depot v pool locs :
  Instance.remainingCapacity v = Instance.capacity v →
  Exists (λ l, (Instance.capacity v <? Location.demand l)%float = false) locs →
  routes (fold_left (buildStep distances depot) locs (mkBuild [] (v :: pool) 0)) ≠ [].
Proof.
  intros Hrc. induction locs as [|l locs IH]; intros Hex.
  - by apply Exists_nil in Hex.
  - cbn [fold_left]. unfold buildStep at 2. simpl. rewrite Hrc.
    destruct (_ <? _)%float eqn:Hgt.
    + apply IH. apply Exists_cons in Hex as [Hl|Hex]; [congruence|done].
    + match goal with
      | |- routes (fold_left _ _ ?st) ≠ [] =>
          pose proof (buildFold_grows distances depot locs st) as Hle
      end.
      intros Hnil. rewrite Hnil in Hle. simpl in Hle. lia.
Qed.

Lemma mergeAll_nonempty distances savings rs pool :
  rs ≠ [] → (fold_left (mergeStep distances) savings (rs, pool)).1 ≠ [].
Proof.
  revert rs pool. induction savings as [|s savings IH]; intros rs pool Hne; [done|].
  cbn [fold_left].
  destruct (mergeStep_cases distances rs pool s)
    as [->|(i1 & r1 & i2 & r2 & k & v & first & rest & H1 & H2 & Hi & _ & _ & _ & _ & _ & _ & ->)];
    [by apply IH|].
  apply IH. intros Hnil. apply (f_equal length) in Hnil.
  assert (is_Some (rs !! Nat.max i1 i2)) as Hmax
    by (destruct (Nat.max_spec i1 i2) as [[_ ->]|[_ ->]]; eauto).
  rewrite length_insert, length_delete in Hnil by done.
  apply lookup_lt_Some in H1, H2. simpl in Hnil. lia.
Qed.

Lemma list_find_firstRouteWith id rs i r :
  list_find (λ r, containsLoc id r = true) rs = Some (i, r)
  ↔ firstRouteWith id rs i r.
Proof.
  rewrite list_find_Some. unfold firstRouteWith. split.
  - intros (Hi & Hc & Hfirst). repeat split; [done..|].
    intros j r' Hj Hr'. specialize (Hfirst j r' Hr' Hj).
    by destruct (containsLoc id r').
  - intros (Hi & Hc & Hfirst). repeat split; [done..|].
    intros j r' Hr' Hj. by rewrite (Hfirst j r' Hj Hr').
Qed.

(** * The claims *)

(** ** C1: one vehicle of capacity 10 *)

(** C1, as stated, fails: whatever the engine, the result is not a single
    route that visits both stops with total demand 10. *)
Lemma scenario_one_van_not_merged :
  ¬ ∃ (E : Engine) (r : Route.t),
      @clarkeWrightAlgorithm E [van 10 1] scenario depot0 = [r] ∧
      containsLoc "a" r = true ∧ containsLoc "b" r = true ∧
      Route.totalCapacity r = 10%float.
Proof.
  intros (E & r & Hr & _ & Hb & _).
  unfold clarkeWrightAlgorithm in Hr.
  rewrite mergeAll_short in Hr; rewrite scenario_built_one_van in Hr;
    [|simpl; lia].
  injection Hr as <-. vm_compute in Hb. discriminate.
Qed.

(** C1, amended: on this input, in whatever order the three locations
    come, the result is the one route depot, first non-depot stop of the
    input, depot, with total demand 5.  The single vehicle is taken by that
    stop, so the other stop gets no route and there is nothing to merge. *)
Theorem scenario_one_van_routes_first_stop `{Engine} locations :
  scenario ≡ₚ locations →
  ∃ first,
    head (nonDepot depot0 locations) = Some first ∧
    clarkeWrightAlgorithm [van 10 1] locations depot0
    = [Route.mk "v"%string "Van"%string
         [depotStop depot0 0; locationStop first 1; depotStop depot0 2]
         (distance depot0 first * 2)%float 5].
Proof.
  intros Hp. destruct (scenario_built_one_van_any locations Hp) as (first & Hf & Hb).
  exists first. split; [done|].
  unfold clarkeWrightAlgorithm.
  rewrite mergeAll_short; rewrite Hb; [done|simpl; lia].
Qed.

Lemma scenario_one_van_routes_first_stop_witness :
  ∃ first,
    head (nonDepot depot0 [stopB; depot0; stopA]) = Some first ∧
    @clarkeWrightAlgorithm testEngine [van 10 1] [stopB; depot0; stopA] depot0
    = [Route.mk "v"%string "Van"%string
         [depotStop depot0 0; locationStop first 1; depotStop depot0 2]
         (@distance testEngine depot0 first * 2)%float 5].
Proof.
  apply (@scenario_one_van_routes_first_stop testEngine [stopB; depot0; stopA]).
  apply permutations_Permutation. vm_compute.
  do 4 right. left.
Defined.

(** ** C2: the vehicle cursor *)

(** C2, as stated, fails: with one vehicle of capacity 4 in the pool, the
    stop of demand 5 is skipped and the cursor stays at 0. *)
Lemma cursor_stays_on_skip :
  let st := mkBuild [] (expandVehicles [van 4 1]) 0 in
  vehicleIndex (buildStep ∅ depot0 st stopA) ≠ S (vehicleIndex st).
Proof. vm_compute. discriminate. Qed.

(** C2, amended: the cursor advances by one exactly when the stop is given
    a route, that is when a vehicle is left at the cursor and the stop's
    demand is within its remaining capacity; a skipped stop leaves the
    builder's state, cursor included, as it was. *)
Theorem cursor_advances_iff_assigned distances depot st location :
  let st' := buildStep distances depot st location in
  (canAssign st location ∧
   vehicleIndex st' = S (vehicleIndex st) ∧
   ∃ route, routes st' = routes st ++ [route])
  ∨ (¬ canAssign st location ∧ st' = st).
Proof.
  unfold canAssign, buildStep.
  destruct (availableVehicles st !! vehicleIndex st) as [vehicle|] eqn:Hv.
  - destruct (_ <? _)%float eqn:Hcap.
    + right. split; [|done]. intros (v' & [= <-] & Hle). congruence.
    + left. split; [by exists vehicle|]. simpl. eauto.
  - right. split; [|done]. by intros (v' & ? & _).
Qed.

(** ** C3: the entries of the savings list *)

(** C3, as stated, fails: in the two-stop scenario the savings list holds
    two entries for the one pair of stops, (A, B) and (B, A). *)
Lemma savings_pair_listed_twice :
  ¬ ∃ E : Engine,
      pairCount stopA stopB
        (sortSavings (computeSavings (@distanceTable E scenario) scenario depot0))
      = 1%nat.
Proof.
  intros [E HE]. unfold pairCount in HE.
  rewrite sortSavings_Permutation in HE. vm_compute in HE. discriminate.
Qed.

(** C3, amended: when the location identifiers are distinct and the depot
    is one of the locations, the savings list holds, for any two distinct
    non-depot stops [i] and [j], exactly one entry from [i] to [j] and one
    from [j] to [i] (two for the unordered pair); and the value of every
    entry of the list is distance(depot, loc1) + distance(depot, loc2)
    - distance(loc1, loc2). *)
Theorem savings_once_per_ordered_pair `{Engine} locations depot i j :
  NoDup (Location._id <$> locations) →
  depot ∈ locations → i ∈ locations → j ∈ locations →
  Location._id i ≠ Location._id depot →
  Location._id j ≠ Location._id depot →
  Location._id i ≠ Location._id j →
  let savings :=
    sortSavings (computeSavings (distanceTable locations) locations depot) in
  orderedCount i j savings = 1%nat ∧
  orderedCount j i savings = 1%nat ∧
  pairCount i j savings = 2%nat ∧
  Forall (λ e, Saving.saving e =
               (distance depot (Saving.loc1 e) + distance depot (Saving.loc2 e)
                - distance (Saving.loc1 e) (Saving.loc2 e))%float) savings.
Proof.
  intros Hnd Hd Hi Hj Hid Hjd Hij savings.
  assert (Hij' : orderedCount i j savings = 1%nat).
  { unfold savings. rewrite orderedCount_sort. by apply computeSavings_ordered. }
  assert (Hji : orderedCount j i savings = 1%nat).
  { unfold savings. rewrite orderedCount_sort. by apply computeSavings_ordered. }
  repeat split; try done.
  - rewrite pairCount_ordered by done. lia.
  - unfold savings. rewrite sortSavings_Permutation.
    eapply Forall_impl; [apply computeSavings_entries|].
    intros e (H1 & H2 & _ & _ & _ & ->). unfold tableSaving.
    by rewrite !lookupDistance_Some.
Qed.

Lemma savings_once_per_ordered_pair_witness :
  let savings :=
    sortSavings (computeSavings (@distanceTable testEngine scenario) scenario depot0) in
  orderedCount stopA stopB savings = 1%nat ∧
  orderedCount stopB stopA savings = 1%nat ∧
  pairCount stopA stopB savings = 2%nat ∧
  Forall (λ e, Saving.saving e =
               (@distance testEngine depot0 (Saving.loc1 e)
                + @distance testEngine depot0 (Saving.loc2 e)
                - @distance testEngine (Saving.loc1 e) (Saving.loc2 e))%float) savings.
Proof.
  apply (@savings_once_per_ordered_pair testEngine scenario depot0 stopA stopB).
  - apply (bool_decide_unpack _). by vm_compute.
  - apply list_elem_of_In. simpl. auto.
  - apply list_elem_of_In. simpl. auto.
  - apply list_elem_of_In. simpl. auto.
  - simpl. discriminate.
  - simpl. discriminate.
  - simpl. discriminate.
Defined.

(** ** C4: vehicles of capacity 4 *)

(** C4, as stated, fails: with two vehicles of capacity 4 the result does
    not consist of two routes. *)
Lemma scenario_small_vans_no_singletons :
  ¬ ∃ (E : Engine) (r1 r2 : Route.t),
      @clarkeWrightAlgorithm E [van 4 2] scenario depot0 = [r1; r2].
Proof.
  intros (E & r1 & r2 & Hr).
  unfold clarkeWrightAlgorithm in Hr.
  rewrite mergeAll_short in Hr; rewrite scenario_built_small_vans in Hr;
    [discriminate|simpl; lia].
Qed.

(** C4, amended: with vehicles of capacity 4, however many there are and
    in whatever order the three locations come, the route builder skips
    both stops (demand 5 exceeds the capacity), so no merge is attempted
    and the result is the empty route list. *)
Theorem scenario_small_vans_route_nothing `{Engine} locations count :
  scenario ≡ₚ locations →
  clarkeWrightAlgorithm [van 4 count] locations depot0 = [].
Proof.
  intros Hp. unfold clarkeWrightAlgorithm.
  rewrite mergeAll_short; rewrite scenario_built_small_vans_any by done;
    [done|simpl; lia].
Qed.

Lemma scenario_small_vans_route_nothing_witness :
  @clarkeWrightAlgorithm testEngine [van 4 2] [stopA; stopB; depot0] depot0 = [].
Proof.
  apply (@scenario_small_vans_route_nothing testEngine [stopA; stopB; depot0] 2).
  apply permutations_Permutation. vm_compute.
  do 2 right. left.
Defined.

(** ** C5: routes start and end at the depot *)

(** C5: every route of the result is the depot, then stops that are not
    the depot, then the depot. *)
Theorem routes_start_end_at_depot `{Engine} vehicles locations depot :
  Forall (λ r, ∃ first mid last,
            Route.stops r = first :: mid ++ [last] ∧
            Stop.locationId first = Location._id depot ∧
            Stop.locationId last = Location._id depot ∧
            Forall (λ s, Stop.locationId s ≠ Location._id depot) mid)
         (clarkeWrightAlgorithm vehicles locations depot).
Proof.
  eapply Forall_impl; [apply clarkeWright_wf|].
  intros r (first & mid & last & Hs & Hf & Hl & Hmid & _).
  exists first, mid, last. repeat split; try done.
  eapply Forall_impl; [exact Hmid|]. by intros s [? _].
Qed.

(** ** C6: capacity *)

(** C6, as stated, fails: with demands 2^53 and 1 and two vehicles of
    capacity 2^53 the two stops are merged into one route, because the
    binary64 sum 2^53 + 1 is 2^53; the demands of its stops add up to
    2^53 + 1, which is above the capacity and is not the [totalCapacity]
    the route carries. *)
Lemma rounded_total_exceeds_capacity :
  ∃ r total capacity,
    @clarkeWrightAlgorithm testEngine [van 0x1p+53 2]
      [depot0; stopHeavy; stopUnit] depot0 = [r] ∧
    Route.vehicleId r = Vehicle._id (van 0x1p+53 2) ∧
    exactSum (routeDemands depot0 r) = Some total ∧
    integerValue (Vehicle.capacity (van 0x1p+53 2)) = Some capacity ∧
    integerValue (Route.totalCapacity r) = Some capacity ∧
    capacity < total.
Proof.
  eexists _, _, _. split; [by vm_compute|].
  split; [done|]. split; [by vm_compute|].
  split; [by vm_compute|]. split; [by vm_compute|]. lia.
Qed.

(** C6, amended: the [totalCapacity] of every route of the result is a
    binary64 sum of the demands of its non-depot stops, bracketed the way
    the merges went, and it is not greater than the capacity of a vehicle
    type of the input that has the route's [vehicleId] (of the one such
    type when the vehicle identifiers are distinct): it is less than or
    equal to that capacity whenever neither of the two is NaN. *)
Theorem route_demand_within_capacity `{Engine} vehicles locations depot :
  Forall (λ r,
            demandSum (routeDemands depot r) (Route.totalCapacity r) ∧
            (∃ v, v ∈ vehicles ∧ Vehicle._id v = Route.vehicleId r ∧
                  (Vehicle.capacity v <? Route.totalCapacity r)%float = false ∧
                  (is_nan (Route.totalCapacity r) = false →
                   is_nan (Vehicle.capacity v) = false →
                   (Route.totalCapacity r <=? Vehicle.capacity v)%float = true)) ∧
            (NoDup (Vehicle._id <$> vehicles) →
             ∀ v, v ∈ vehicles → Vehicle._id v = Route.vehicleId r →
                  (Vehicle.capacity v <? Route.totalCapacity r)%float = false))
         (clarkeWrightAlgorithm vehicles locations depot).
Proof.
  eapply Forall_impl; [apply clarkeWright_wf|].
  intros r Hwf. split; [by eapply wfRoute_demand|].
  destruct Hwf as (_ & _ & _ & _ & _ & _ & _ & _ & v & Hv & Hid & Hcap).
  apply expandVehicles_elem in Hv as [Hv _].
  split.
  - exists v. split_and!; try done.
    intros Hnt Hnc. by apply Binary64.not_ltb_leb.
  - intros Hnd v' Hv' Hid'.
    by rewrite (NoDup_fmap_elem_inj Vehicle._id vehicles v' v) by congruence.
Qed.

(** ** C7: the distance is symmetric and zero on a point *)

(** C7, as stated, fails: between the antipodal points (8, 0) and
    (-8, 180) the sum under the square root is 1 + 2^-52, the square root
    of 1 minus it is NaN and so is the distance, in both directions; two
    NaN do not compare [==]. *)
Lemma distance_nan_between_antipodes :
  is_nan (@calculateDistance tableEngine 8 0 (-8) 180) = true ∧
  is_nan (@calculateDistance tableEngine (-8) 180 8 0) = true ∧
  (@calculateDistance tableEngine 8 0 (-8) 180
   =? @calculateDistance tableEngine (-8) 180 8 0)%float = false.
Proof. by vm_compute. Qed.

(** C7, amended: on an engine whose [Math.sin] is odd, the distance from
    A to B and the distance from B to A are the same double, so they
    compare [==] whenever that distance is a number (it can be NaN); and
    when moreover [Math.sin(0)] and [Math.atan2(0, 1)] are 0 and the
    cosine of a finite number is at most 1 in magnitude, the distance from
    a point to itself is 0 for every latitude from -90 to 90 and every
    finite longitude. *)
Theorem distance_symmetric_zero_on_self `{Engine} :
  (∀ x, Math_sin (- x) = - Math_sin x)%float →
  Math_sin 0 = 0%float →
  Math_atan2 0 1 = 0%float →
  (∀ x, is_finite x = true → (abs (Math_cos x) <=? 1)%float = true) →
  (∀ lat1 lon1 lat2 lon2,
     calculateDistance lat1 lon1 lat2 lon2 = calculateDistance lat2 lon2 lat1 lon1 ∧
     (is_nan (calculateDistance lat1 lon1 lat2 lon2) = false →
      (calculateDistance lat1 lon1 lat2 lon2 =? calculateDistance lat2 lon2 lat1 lon1)%float
      = true)) ∧
  (∀ lat lon,
     (abs lat <=? 90)%float = true → is_finite lon = true →
     calculateDistance lat lon lat lon = 0%float).
Proof.
  intros Hodd Hsin Hatan Hcos. split.
  - intros lat1 lon1 lat2 lon2.
    pose proof (calculateDistance_swap Hodd lat1 lon1 lat2 lon2) as Hswap.
    split; [done|]. rewrite <- Hswap. unfold is_nan.
    by intros ->%negb_false_iff.
  - intros lat lon. by apply calculateDistance_self.
Qed.

Lemma distance_symmetric_zero_on_self_witness :
  (@calculateDistance testEngine 0 1 0 2 = @calculateDistance testEngine 0 2 0 1) ∧
  @calculateDistance testEngine 48.5 2.25 48.5 2.25 = 0%float.
Proof.
  destruct (@distance_symmetric_zero_on_self testEngine) as [Hsym Hself].
  - reflexivity.
  - reflexivity.
  - reflexivity.
  - intros x _. reflexivity.
  - split; [apply Hsym|]. apply Hself; reflexivity.
Defined.

(** ** C8: the savings list is sorted *)

(** C8, as stated, fails: with the antipodal stops (8, 0) and (-8, 180)
    the two savings are NaN, and a list with a NaN is not in non-increasing
    order, as the sort leaves it or in any other order. *)
Lemma savings_with_nan_not_sorted :
  let savings :=
    computeSavings (@distanceTable tableEngine [depot0; stopNorth; stopSouth])
      [depot0; stopNorth; stopSouth] depot0 in
  Forall (λ e, is_nan (Saving.saving e) = true) savings ∧
  ¬ nonIncreasing (sortSavings savings) ∧
  Forall (λ l, ¬ nonIncreasing l) (permutations savings).
Proof.
  assert (Hnot : ∀ a b l, (Saving.saving b <=? Saving.saving a)%float = false →
                          ¬ nonIncreasing (a :: b :: l)).
  { intros a b l Hle Hs. apply Sorted_inv in Hs as [_ Hhd].
    apply HdRel_inv in Hhd. congruence. }
  split; [vm_compute; by repeat constructor|].
  split; [by apply Hnot|].
  vm_compute. repeat constructor; by apply Hnot.
Qed.

(** C8, amended: when no saving is NaN, the sorted savings list is in
    non-increasing order: every entry's saving is greater than or equal to
    the saving of the entry that follows it. *)
Theorem savings_sorted_non_increasing `{Engine} locations depot :
  Forall savingIsNumber
         (computeSavings (distanceTable locations) locations depot) →
  nonIncreasing
    (sortSavings (computeSavings (distanceTable locations) locations depot)).
Proof.
  generalize (computeSavings (distanceTable locations) locations depot).
  intros savings Hnum.
  induction Hnum as [|a savings Ha Hnum IH]; simpl; [constructor|].
  apply insertSaving_sorted; [done| |done].
  by rewrite sortSavings_Permutation.
Qed.

Lemma savings_sorted_non_increasing_witness :
  nonIncreasing
    (sortSavings
       (computeSavings (@distanceTable testEngine [depot0; stopA; stopB; stopC])
          [depot0; stopA; stopB; stopC] depot0)).
Proof.
  apply (@savings_sorted_non_increasing testEngine).
  vm_compute. repeat constructor.
Defined.

(** ** C9: a stop no vehicle can carry *)

(** C9: when the location identifiers are distinct, a non-depot location
    whose demand exceeds the capacity of every vehicle of the pool is a stop
    of no route of the result.  The result is still a route list: nothing
    is raised. *)
Theorem unroutable_stop_omitted `{Engine} vehicles locations depot loc :
  NoDup (Location._id <$> locations) →
  loc ∈ locations →
  Location._id loc ≠ Location._id depot →
  Forall (λ v, (Instance.capacity v <? Location.demand loc)%float = true)
         (expandVehicles vehicles) →
  Forall (λ r, Forall (λ s, Stop.locationId s ≠ Location._id loc) (Route.stops r))
         (clarkeWrightAlgorithm vehicles locations depot).
Proof.
  intros Hnd Hloc Hdepot Hcap.
  eapply Forall_impl; [apply clarkeWright_wf|].
  intros r (first & mid & last & -> & Hf & Hl & Hmid & _).
  constructor; [congruence|].
  apply Forall_app. split; [|constructor; [congruence|constructor]].
  eapply Forall_impl; [exact Hmid|].
  intros s (_ & loc' & Hloc' & Hid & _ & v & Hv & Hle) Heq.
  assert (loc' = loc) as ->
    by (apply (NoDup_fmap_elem_inj Location._id locations); congruence).
  apply list_elem_of_fmap in Hv as (inst & -> & Hinst).
  rewrite Forall_forall in Hcap. specialize (Hcap inst Hinst).
  unfold Instance.capacity in Hcap. congruence.
Qed.

Lemma unroutable_stop_omitted_witness :
  Forall (λ r, Forall (λ s, Stop.locationId s ≠ "b"%string) (Route.stops r))
    (@clarkeWrightAlgorithm testEngine [van 10 2]
       [depot0; stopA; Location.mk "b"%string "B"%string 0 2 11 false] depot0).
Proof.
  apply (@unroutable_stop_omitted testEngine [van 10 2]
           [depot0; stopA; Location.mk "b"%string "B"%string 0 2 11 false] depot0
           (Location.mk "b"%string "B"%string 0 2 11 false)).
  - apply (bool_decide_unpack _). by vm_compute.
  - apply list_elem_of_In. simpl. auto.
  - simpl. discriminate.
  - vm_compute. repeat constructor.
Defined.

(** ** C10: no more routes than vehicles *)

(** C10: with vehicle counts that are not negative, the result has at most
    as many routes as the counts add up to: the route builder makes one
    route per position of the vehicle cursor, which stays within the pool,
    and a merge step leaves the route list as it is or makes it one route
    shorter. *)
Theorem route_count_within_fleet `{Engine} vehicles locations depot :
  Forall (λ v, 0 ≤ Vehicle.count v) vehicles →
  Z.of_nat (length (clarkeWrightAlgorithm vehicles locations depot))
  ≤ sumCounts vehicles ∧
  (let built :=
     buildRoutes (distanceTable locations) depot (nonDepot depot locations)
       (expandVehicles vehicles) in
   length (routes built) = vehicleIndex built ∧
   Z.of_nat (vehicleIndex built) ≤ sumCounts vehicles) ∧
  (∀ rs pool saving,
     let rs' := (mergeStep (distanceTable locations) (rs, pool) saving).1 in
     rs' = rs ∨ S (length rs') = length rs).
Proof.
  intros Hcount. rewrite <- expandVehicles_length by done.
  split; [apply inj_le, clarkeWright_length|]. split.
  - destruct (buildRoutes_inv (distanceTable locations) depot locations vehicles)
      as (_ & _ & Hlen & Hidx & _).
    split; [done|]. by apply inj_le.
  - intros rs pool saving. apply mergeStep_length.
Qed.

Lemma route_count_within_fleet_witness :
  Z.of_nat (length (@clarkeWrightAlgorithm testEngine [van 5 2] scenario depot0))
  ≤ sumCounts [van 5 2].
Proof.
  apply (@route_count_within_fleet testEngine [van 5 2] scenario depot0).
  repeat constructor. simpl. lia.
Defined.

(** * Further properties of the program *)

(** ** The caller *)

(** X2: the depot is the first location flagged [isDepot]; when none is
    flagged it is the first location. *)
Theorem selectDepot_prefers_flagged locations depot :
  selectDepot locations = Some depot →
  (Location.isDepot depot = true ∧
   ∃ before after, locations = before ++ depot :: after ∧
                   Forall (λ l, Location.isDepot l = false) before)
  ∨ (Forall (λ l, Location.isDepot l = false) locations ∧
     head locations = Some depot).
Proof.
  unfold selectDepot.
  destruct (List.find Location.isDepot locations) as [d|] eqn:Hfind.
  - intros [= <-]. left. by apply find_first.
  - intros Hhead. right. split; [by apply find_none_Forall|done].
Qed.

Lemma selectDepot_prefers_flagged_witness :
  (Location.isDepot depot0 = true ∧
   ∃ before after, [stopA; depot0; stopB] = before ++ depot0 :: after ∧
                   Forall (λ l, Location.isDepot l = false) before)
  ∨ (Forall (λ l, Location.isDepot l = false) [stopA; depot0; stopB] ∧
     head [stopA; depot0; stopB] = Some depot0).
Proof.
  apply (selectDepot_prefers_flagged [stopA; depot0; stopB] depot0).
  reflexivity.
Defined.

(** ** The distance table *)

(** X3: the table has a row exactly for the identifiers of the
    locations, and every row has an entry exactly for those identifiers:
    a distance lookup between two locations never reads a missing key. *)
Theorem distance_table_keys `{Engine} locations key :
  match distanceTable locations !! key with
  | Some row =>
      key ∈ Location._id <$> locations ∧
      ∀ key2, is_Some (row !! key2) ↔ key2 ∈ Location._id <$> locations
  | None => key ∉ Location._id <$> locations
  end.
Proof.
  pose proof (fold_insert_is_Some Location._id (distanceRow locations)
                locations ∅ key) as Hkey.
  fold (distanceTable locations) in Hkey.
  assert (Hempty : ∀ V k, ¬ is_Some ((∅ : gmap string V) !! k))
    by (intros V k; rewrite lookup_empty; apply is_Some_None).
  destruct (distanceTable locations !! key) as [row|] eqn:Hrow.
  - split.
    + destruct (proj1 Hkey) as [Hin|Hin]; [by eexists|done|by apply Hempty in Hin].
    + intros key2.
      apply fold_insert_lookup_inv in Hrow as [(loc1 & _ & _ & ->)|Hrow];
        [|by rewrite lookup_empty in Hrow].
      unfold distanceRow. rewrite fold_insert_is_Some.
      split; [intros [Hin|Hin]; [done|by apply Hempty in Hin]|by left].
  - intros Hin. destruct (proj2 Hkey (or_introl Hin)) as [row Hrow']. done.
Qed.

(** X4: the entry of two locations is the distance between the
    locations that carry their identifiers, which are the two locations
    themselves when the identifiers are distinct. *)
Theorem distance_table_entry `{Engine} locations a b :
  a ∈ locations → b ∈ locations →
  ∃ a' b', a' ∈ locations ∧ b' ∈ locations ∧
    Location._id a' = Location._id a ∧ Location._id b' = Location._id b ∧
    lookupDistance (distanceTable locations) (Location._id a) (Location._id b)
    = distance a' b' ∧
    (NoDup (Location._id <$> locations) → a' = a ∧ b' = b).
Proof.
  intros Ha Hb. unfold lookupDistance.
  assert (Hfind : ∀ {V} (v : Location.t → V) x, x ∈ locations →
            ∃ x', x' ∈ locations ∧ Location._id x' = Location._id x ∧
                  fold_left (λ m y, <[Location._id y := v y]> m) locations
                    (∅ : gmap string V)
                    !! Location._id x = Some (v x')).
  { intros V v x Hx.
    destruct (proj2 (fold_insert_is_Some Location._id v locations ∅ (Location._id x)))
      as [val Hval].
    { left. apply list_elem_of_fmap. eauto. }
    pose proof Hval as Hinv.
    apply fold_insert_lookup_inv in Hinv as [(x' & Hx' & Hid & ->)|Hinv];
      [eauto|by rewrite lookup_empty in Hinv]. }
  destruct (Hfind _ (distanceRow locations) a Ha) as (a' & Ha' & Hida & Hrow).
  fold (distanceTable locations) in Hrow. rewrite Hrow.
  destruct (Hfind _ (λ loc2, calculateDistance (Location.latitude a')
                               (Location.longitude a') (Location.latitude loc2)
                               (Location.longitude loc2)) b Hb)
    as (b' & Hb' & Hidb & Hcol).
  fold (distanceRow locations a') in Hcol. rewrite Hcol.
  exists a', b'. split_and!; try done.
  intros Hnd. split; by apply (NoDup_fmap_elem_inj Location._id locations).
Qed.

Lemma distance_table_entry_witness :
  ∃ a' b', a' ∈ scenario ∧ b' ∈ scenario ∧
    Location._id a' = Location._id stopA ∧ Location._id b' = Location._id stopB ∧
    lookupDistance (@distanceTable testEngine scenario)
      (Location._id stopA) (Location._id stopB)
    = @distance testEngine a' b' ∧
    (NoDup (Location._id <$> scenario) → a' = stopA ∧ b' = stopB).
Proof.
  apply (@distance_table_entry testEngine scenario stopA stopB);
    apply list_elem_of_In; simpl; auto.
Defined.

(** ** The savings list *)

(** X5: no entry of the savings list involves the depot or pairs a stop
    with itself, and both stops of an entry are locations of the input. *)
Theorem savings_exclude_depot_and_self `{Engine} locations depot :
  Forall (λ e, Saving.loc1 e ∈ locations ∧
               Saving.loc2 e ∈ locations ∧
               Location._id (Saving.loc1 e) ≠ Location._id depot ∧
               Location._id (Saving.loc2 e) ≠ Location._id depot ∧
               Location._id (Saving.loc1 e) ≠ Location._id (Saving.loc2 e))
         (sortSavings (computeSavings (distanceTable locations) locations depot)).
Proof.
  rewrite sortSavings_Permutation.
  eapply Forall_impl; [apply computeSavings_entries|].
  intros e (? & ? & ? & ? & ? & _). done.
Qed.

(** X6: with distinct location identifiers and [n] non-depot locations the
    savings list has [n * (n - 1)] entries. *)
Theorem savings_count `{Engine} locations depot :
  NoDup (Location._id <$> locations) →
  length (sortSavings (computeSavings (distanceTable locations) locations depot))
  = (length (nonDepot depot locations) * (length (nonDepot depot locations) - 1))%nat.
Proof.
  intros Hnd. rewrite sortSavings_Permutation. by apply computeSavings_length.
Qed.

Lemma savings_count_witness :
  length (sortSavings
            (computeSavings (@distanceTable testEngine [depot0; stopA; stopB; stopC])
               [depot0; stopA; stopB; stopC] depot0))
  = (length (nonDepot depot0 [depot0; stopA; stopB; stopC])
     * (length (nonDepot depot0 [depot0; stopA; stopB; stopC]) - 1))%nat.
Proof.
  apply (@savings_count testEngine).
  apply (bool_decide_unpack _). by vm_compute.
Defined.

(** X7: sorting a savings list without NaN gives the one list a stable
    sort can give: it holds exactly the entries it was given, in
    non-increasing order of saving, and entries whose savings are equal
    keep the order they had. *)
Theorem sort_keeps_entries_and_tie_order (savings : list Saving.t) :
  Forall savingIsNumber savings →
  sortSavings savings ≡ₚ savings ∧
  nonIncreasing (sortSavings savings) ∧
  ∀ k : float,
    filter (λ e, (Saving.saving e =? k)%float = true) (sortSavings savings)
    = filter (λ e, (Saving.saving e =? k)%float = true) savings.
Proof.
  intros Hnum. split; [apply sortSavings_Permutation|].
  split; [by apply sortSavings_sorted|].
  intros k. clear Hnum. induction savings as [|a savings IH]; [done|]. simpl.
  by rewrite insertSaving_stable, !filter_cons, IH.
Qed.

Lemma sort_keeps_entries_and_tie_order_witness :
  let savings :=
    computeSavings (@distanceTable testEngine [depot0; stopA; stopB; stopC])
      [depot0; stopA; stopB; stopC] depot0 in
  sortSavings savings ≡ₚ savings ∧
  nonIncreasing (sortSavings savings) ∧
  ∀ k : float,
    filter (λ e, (Saving.saving e =? k)%float = true) (sortSavings savings)
    = filter (λ e, (Saving.saving e =? k)%float = true) savings.
Proof.
  apply sort_keeps_entries_and_tie_order.
  vm_compute. repeat constructor.
Defined.

(** X8: reversed pairs carry the same saving: on an engine whose
    [Math.sin] is odd, with distinct location identifiers and the depot
    among the locations, the entry from [i] to [j] and the entry from [j] to
    [i] have the same value. *)
Theorem reversed_pairs_have_equal_savings `{Engine} locations depot :
  (∀ x, Math_sin (- x) = - Math_sin x)%float →
  NoDup (Location._id <$> locations) →
  depot ∈ locations →
  let savings :=
    sortSavings (computeSavings (distanceTable locations) locations depot) in
  ∀ e e', e ∈ savings → e' ∈ savings →
          Location._id (Saving.loc1 e) = Location._id (Saving.loc2 e') →
          Location._id (Saving.loc2 e) = Location._id (Saving.loc1 e') →
          Saving.saving e = Saving.saving e'.
Proof.
  intros Hodd Hnd Hd savings e e' He He' H1 H2.
  pose proof (computeSavings_entries (distanceTable locations) locations depot) as Hall.
  rewrite <- (sortSavings_Permutation (computeSavings _ _ _)) in Hall.
  rewrite Forall_forall in Hall.
  destruct (Hall e He) as (Ha & Hb & _ & _ & _ & ->).
  destruct (Hall e' He') as (Ha' & Hb' & _ & _ & _ & ->).
  assert (Saving.loc1 e = Saving.loc2 e') as Hx
    by (by apply (NoDup_fmap_elem_inj Location._id locations)).
  assert (Saving.loc2 e = Saving.loc1 e') as Hy
    by (by apply (NoDup_fmap_elem_inj Location._id locations)).
  unfold tableSaving. rewrite !lookupDistance_Some by done.
  rewrite Hx, Hy. unfold distance.
  rewrite (Binary64.add_comm (calculateDistance _ _ _ _)).
  f_equal. by apply calculateDistance_swap.
Qed.

Lemma reversed_pairs_have_equal_savings_witness :
  tableSaving (@distanceTable testEngine scenario) depot0 stopA stopB
  = tableSaving (@distanceTable testEngine scenario) depot0 stopB stopA.
Proof.
  refine (@reversed_pairs_have_equal_savings testEngine scenario depot0 _ _ _
            (Saving.mk stopA stopB
               (tableSaving (@distanceTable testEngine scenario) depot0 stopA stopB))
            (Saving.mk stopB stopA
               (tableSaving (@distanceTable testEngine scenario) depot0 stopB stopA))
            _ _ eq_refl eq_refl).
  - intros x. reflexivity.
  - apply (bool_decide_unpack _). by vm_compute.
  - apply list_elem_of_In. simpl. auto.
  - apply list_elem_of_In. vm_compute. auto.
  - apply list_elem_of_In. vm_compute. auto.
Defined.

(** ** The merge loop *)

(** X9: for each of the two stops the scanning loop returns the first
    route that contains it, with its index, and nothing when no route
    contains it. *)
Theorem scan_finds_first_routes id1 id2 rs :
  let found := findRoutes id1 id2 0 rs None None in
  (∀ i r, found.1 = Some (i, r) ↔ firstRouteWith id1 rs i r) ∧
  (∀ i r, found.2 = Some (i, r) ↔ firstRouteWith id2 rs i r) ∧
  (found.1 = None ↔ Forall (λ r, containsLoc id1 r = false) rs) ∧
  (found.2 = None ↔ Forall (λ r, containsLoc id2 r = false) rs).
Proof.
  intros found. unfold found. rewrite findRoutes_start. simpl.
  assert (Hnone : ∀ id, list_find (λ r, containsLoc id r = true) rs = None
                        ↔ Forall (λ r, containsLoc id r = false) rs).
  { intros id. rewrite list_find_None. apply Forall_proper; [|done].
    intros r. by destruct (containsLoc id r). }
  split; [intros i r; apply list_find_firstRouteWith|].
  split; [intros i r; apply list_find_firstRouteWith|].
  split; apply Hnone.
Qed.

(** X10: a saving one of whose stops is in no route changes nothing. *)
Theorem saving_with_unrouted_stop_is_skipped distances rs pool saving :
  Forall (λ r, containsLoc (Location._id (Saving.loc1 saving)) r = false) rs ∨
  Forall (λ r, containsLoc (Location._id (Saving.loc2 saving)) r = false) rs →
  mergeStep distances (rs, pool) saving = (rs, pool).
Proof.
  intros Hno.
  destruct (mergeStep_cases distances rs pool saving)
    as [->|(i1 & r1 & i2 & r2 & k & v & first & rest & H1 & H2 & _ & Hc1 & Hc2 & _)];
    [done|].
  destruct Hno as [Hno|Hno]; rewrite Forall_lookup in Hno.
  - specialize (Hno _ _ H1). simpl in Hno. congruence.
  - specialize (Hno _ _ H2). simpl in Hno. congruence.
Qed.

Lemma saving_with_unrouted_stop_is_skipped_witness :
  mergeStep ∅ ([initialRoute ∅ depot0 stopA (Instance.mk (van 10 1) 10)],
               [Instance.mk (van 10 1) 5])
            (Saving.mk stopA stopB 1%float)
  = ([initialRoute ∅ depot0 stopA (Instance.mk (van 10 1) 10)],
     [Instance.mk (van 10 1) 5]).
Proof.
  apply saving_with_unrouted_stop_is_skipped.
  right. repeat constructor.
Defined.

(** X11: merging moves stops between routes but neither drops nor adds
    one: the routed stops of the result are those of the routes first
    built. *)
Theorem merging_keeps_routed_stops `{Engine} vehicles locations depot :
  allRoutedIds (clarkeWrightAlgorithm vehicles locations depot)
  ≡ₚ allRoutedIds
       (routes (buildRoutes (distanceTable locations) depot
                  (nonDepot depot locations) (expandVehicles vehicles))).
Proof.
  unfold clarkeWrightAlgorithm.
  destruct (buildRoutes_inv (distanceTable locations) depot locations vehicles)
    as (Hwf & Hpool & _).
  by eapply mergeAll_routed.
Qed.

(** ** The routes returned *)

(** X12: with distinct location identifiers no stop is routed twice, and
    every routed stop is a non-depot location of the input. *)
Theorem no_stop_routed_twice `{Engine} vehicles locations depot :
  NoDup (Location._id <$> locations) →
  let routed := allRoutedIds (clarkeWrightAlgorithm vehicles locations depot) in
  NoDup routed ∧
  ∀ id, id ∈ routed →
        id ≠ Location._id depot ∧ ∃ l, l ∈ locations ∧ Location._id l = id.
Proof.
  intros Hnd routed.
  destruct (clarkeWright_routed vehicles locations depot) as (sub & Hsub & Hperm).
  fold routed in Hperm. split.
  - rewrite Hperm. eapply sublist_NoDup; [apply (nonDepot_NoDup depot), Hnd|].
    by apply fmap_sublist.
  - intros id Hid. rewrite Hperm in Hid.
    apply list_elem_of_fmap in Hid as (l & -> & Hl).
    apply (elem_of_sublist _ _ _ Hl) in Hsub. rename Hsub into Hin.
    apply list_elem_of_filter in Hin as [Hne Hin]. eauto.
Qed.

Lemma no_stop_routed_twice_witness :
  let routed :=
    allRoutedIds (@clarkeWrightAlgorithm testEngine [van 10 2] scenario depot0) in
  NoDup routed ∧
  ∀ id, id ∈ routed →
        id ≠ Location._id depot0 ∧ ∃ l, l ∈ scenario ∧ Location._id l = id.
Proof.
  apply (@no_stop_routed_twice testEngine [van 10 2] scenario depot0).
  apply (bool_decide_unpack _). by vm_compute.
Defined.

(** X13: every route of the result is the depot, one or more non-depot
    locations of the input copied field by field, and the depot again;
    its [totalCapacity] is a binary64 sum of the demands of those
    locations, bracketed the way the merges went. *)
Theorem routes_visit_input_locations `{Engine} vehicles locations depot r :
  r ∈ clarkeWrightAlgorithm vehicles locations depot →
  ∃ locs, locs ≠ [] ∧
          Forall (λ l, l ∈ locations ∧ Location._id l ≠ Location._id depot) locs ∧
          Route.stops r = routeStops depot locs ∧
          demandSum (Location.demand <$> locs) (Route.totalCapacity r).
Proof.
  intros Hr.
  pose proof (clarkeWright_visits vehicles locations depot) as Hall.
  rewrite Forall_forall in Hall. exact (Hall r Hr).
Qed.

Lemma routes_visit_input_locations_witness :
  ∃ locs, locs ≠ [] ∧
          Forall (λ l, l ∈ scenario ∧ Location._id l ≠ Location._id depot0) locs ∧
          Route.stops (initialRoute (@distanceTable testEngine scenario) depot0 stopA
                         (Instance.mk (van 5 1) 5))
          = routeStops depot0 locs ∧
          demandSum (Location.demand <$> locs)
            (Route.totalCapacity (initialRoute (@distanceTable testEngine scenario)
                                    depot0 stopA (Instance.mk (van 5 1) 5))).
Proof.
  apply (@routes_visit_input_locations testEngine [van 5 1] scenario depot0).
  apply list_elem_of_In. vm_compute. by left.
Defined.

(** X14: the stops of every route carry the [order] values 0, 1, 2, ...
    in sequence, and a route has at least three stops. *)
Theorem stops_numbered_in_sequence `{Engine} vehicles locations depot :
  Forall (λ r, Stop.order <$> Route.stops r = seq 0 (length (Route.stops r)) ∧
               (3 ≤ length (Route.stops r))%nat)
         (clarkeWrightAlgorithm vehicles locations depot).
Proof.
  eapply Forall_impl; [apply clarkeWright_visits|].
  intros r (locs & Hne & _ & -> & _). split; [apply routeStops_order|].
  unfold routeStops. rewrite length_imap. simpl.
  rewrite length_app, length_fmap. simpl. destruct locs; [done|simpl; lia].
Qed.

(** X15: there are never more routes than non-depot locations. *)
Theorem route_count_within_stops `{Engine} vehicles locations depot :
  (length (clarkeWrightAlgorithm vehicles locations depot)
   ≤ length (nonDepot depot locations))%nat.
Proof.
  unfold clarkeWrightAlgorithm. etrans; [apply mergeAll_length|].
  unfold buildRoutes. etrans; [apply buildFold_length|]. simpl. lia.
Qed.

(** X16: when the pool has at least as many vehicles as there are
    non-depot locations and no demand is greater than the capacity of a
    vehicle type, every non-depot location is routed. *)
Theorem every_stop_routed_when_fleet_suffices `{Engine} vehicles locations depot :
  (length (nonDepot depot locations) ≤ length (expandVehicles vehicles))%nat →
  (∀ v l, v ∈ vehicles → l ∈ locations →
          (Vehicle.capacity v <? Location.demand l)%float = false) →
  allRoutedIds (clarkeWrightAlgorithm vehicles locations depot)
  ≡ₚ Location._id <$> nonDepot depot locations.
Proof.
  intros Hlen Hfit. unfold clarkeWrightAlgorithm.
  destruct (buildRoutes_inv (distanceTable locations) depot locations vehicles)
    as (Hwf & Hpool & _).
  rewrite (mergeAll_routed _ depot locations _ _ _ _ Hpool Hwf).
  unfold buildRoutes.
  rewrite (buildFold_all _ _ (expandVehicles vehicles)); simpl;
    [done|apply expandVehicles_fresh|done|lia|].
  intros v l Hv Hl. apply list_elem_of_filter in Hl as [_ Hl].
  apply Hfit; [|done].
  apply (expandVehicles_elem vehicles (Instance.vehicle v)).
  apply list_elem_of_fmap. eauto.
Qed.

Lemma every_stop_routed_when_fleet_suffices_witness :
  allRoutedIds (@clarkeWrightAlgorithm testEngine [van 10 2] scenario depot0)
  ≡ₚ Location._id <$> nonDepot depot0 scenario.
Proof.
  apply (@every_stop_routed_when_fleet_suffices testEngine [van 10 2] scenario depot0).
  - vm_compute. lia.
  - intros v l Hv Hl.
    apply list_elem_of_In in Hv. apply list_elem_of_In in Hl.
    simpl in Hv, Hl.
    destruct Hv as [<-|[]]. destruct Hl as [<-|[<-|[<-|[]]]]; reflexivity.
Defined.

(** ** Vehicles *)

(** X17: the route builder hands out the pool in order: its i-th route
    is bound to the i-th vehicle of the pool. *)
Theorem builder_takes_vehicles_in_pool_order distances depot locs pool :
  let built := buildRoutes distances depot locs pool in
  Route.vehicleId <$> routes built
  = Instance._id <$> take (length (routes built)) pool.
Proof.
  intros built. unfold built, buildRoutes.
  rewrite <- (buildFold_index distances depot locs (mkBuild [] pool 0)) by done.
  by apply buildFold_vehicles.
Qed.

(** X18: the vehicles of the routes are drawn from the pool without
    repetition: an identifier is on no more routes than the pool has
    vehicles with it. *)
Theorem route_vehicles_drawn_from_pool `{Engine} vehicles locations depot :
  Route.vehicleId <$> clarkeWrightAlgorithm vehicles locations depot
  ⊆+ Instance._id <$> expandVehicles vehicles.
Proof.
  unfold clarkeWrightAlgorithm. etrans; [apply mergeAll_vehicleIds|].
  unfold buildRoutes.
  rewrite (buildFold_vehicles _ _ (expandVehicles vehicles)) by done.
  apply sublist_submseteq, fmap_sublist, sublist_take.
Qed.

(** X19: the result is empty exactly when the pool is empty or the first
    vehicle of the pool is too small for every non-depot location; the
    other vehicles of the pool do not matter. *)
Theorem result_empty_iff `{Engine} vehicles locations depot :
  clarkeWrightAlgorithm vehicles locations depot = [] ↔
  match expandVehicles vehicles with
  | [] => True
  | v :: _ =>
      Forall (λ l, (Instance.capacity v <? Location.demand l)%float = true)
             (nonDepot depot locations)
  end.
Proof.
  unfold clarkeWrightAlgorithm, buildRoutes.
  pose proof (expandVehicles_fresh vehicles) as Hfresh.
  destruct (expandVehicles vehicles) as [|v pool].
  - rewrite buildFold_exhausted by done. simpl.
    by rewrite mergeAll_short by (simpl; lia).
  - apply Forall_cons in Hfresh as [Hrc _]. split.
    + intros Hnil. apply Forall_forall. intros l Hl.
      destruct (Instance.capacity v <? Location.demand l)%float eqn:Hfit;
        [done|exfalso].
      eapply mergeAll_nonempty; [|exact Hnil].
      apply buildFold_some_fit; [done|].
      apply Exists_exists. by exists l.
    + intros Hsmall. rewrite buildFold_skip_all by done. simpl.
      by rewrite mergeAll_short by (simpl; lia).
Qed.

(** X20: a first vehicle type too small for every non-depot location
    blocks the whole plan, whatever other vehicles are given. *)
Theorem first_vehicle_too_small_blocks_all `{Engine} v vehicles locations depot :
  0 < Vehicle.count v →
  (∀ l, l ∈ locations → Location._id l ≠ Location._id depot →
        (Vehicle.capacity v <? Location.demand l)%float = true) →
  clarkeWrightAlgorithm (v :: vehicles) locations depot = [].
Proof.
  intros Hcount Hsmall. unfold clarkeWrightAlgorithm, buildRoutes.
  cbn [expandVehicles flat_map].
  destruct (Z.to_nat (Vehicle.count v)) as [|n] eqn:Hn; [lia|].
  cbn [replicate app].
  rewrite buildFold_skip_all; [|done|].
  - simpl. by rewrite mergeAll_short by (simpl; lia).
  - eapply Forall_impl; [apply nonDepot_Forall|].
    intros l [Hl Hne]. by apply Hsmall.
Qed.

Lemma first_vehicle_too_small_blocks_all_witness :
  @clarkeWrightAlgorithm testEngine [van 1 1; van 100 5] scenario depot0 = [].
Proof.
  apply (@first_vehicle_too_small_blocks_all testEngine (van 1 1) [van 100 5]
           scenario depot0).
  - simpl. lia.
  - intros l Hl Hne. apply list_elem_of_In in Hl. simpl in Hl.
    destruct Hl as [<-|[<-|[<-|[]]]]; simpl in *; [done|reflexivity..].
Defined.

(** X21: without a vehicle of positive count, or with no location other
    than the depot, there is no route. *)
Theorem no_vehicle_or_no_stop_gives_no_route `{Engine} vehicles locations depot :
  Forall (λ v, Vehicle.count v ≤ 0) vehicles ∨
  Forall (λ l, Location._id l = Location._id depot) locations →
  clarkeWrightAlgorithm vehicles locations depot = [].
Proof.
  intros Hno. unfold clarkeWrightAlgorithm, buildRoutes.
  assert (routes (fold_left (buildStep (distanceTable locations) depot)
                    (nonDepot depot locations)
                    (mkBuild [] (expandVehicles vehicles) 0)) = []) as Hnil.
  { destruct Hno as [Hv|Hl].
    - rewrite (expandVehicles_none _ Hv). by rewrite buildFold_exhausted.
    - unfold nonDepot.
      replace (filter _ locations) with (@nil Location.t); [done|].
      symmetry. induction Hl as [|l ls Hl _ IH]; [done|].
      rewrite filter_cons. by destruct (decide _). }
  rewrite Hnil. by rewrite mergeAll_short by (simpl; lia).
Qed.

Lemma no_vehicle_or_no_stop_gives_no_route_witness :
  @clarkeWrightAlgorithm testEngine [van 10 0] scenario depot0 = [].
Proof.
  apply (@no_vehicle_or_no_stop_gives_no_route testEngine [van 10 0] scenario depot0).
  left. repeat constructor. simpl. lia.
Defined.

(** ** The distance formula *)

(** X22: a distance is never negative: on an engine whose [Math.atan2]
    gives NaN for a NaN first argument and NaN or a value not below zero
    for a first argument that is [+0] or positive, [calculateDistance]
    returns NaN or a value not below zero. *)
Theorem distance_not_negative `{Engine} lat1 lon1 lat2 lon2 :
  (∀ x, is_nan (Math_atan2 nan x) = true) →
  (∀ y x, y = 0%float ∨ (0 <? y)%float = true →
          is_nan (Math_atan2 y x) = true ∨ (0 <=? Math_atan2 y x)%float = true) →
  is_nan (calculateDistance lat1 lon1 lat2 lon2) = true ∨
  (0 <=? calculateDistance lat1 lon1 lat2 lon2)%float = true.
Proof.
  intros Hnan Hpos. unfold calculateDistance. cbv zeta.
  apply Binary64.mul_positive_nonneg; [done..|].
  apply Binary64.mul_positive_nonneg; [done..|].
  match goal with
  | |- context [Math_atan2 (sqrt (?s * ?s + ?t)) ?x] =>
      destruct (Binary64.sqrt_square_sum s t) as [Hn|Hp];
      [left|by apply Hpos]
  end.
  apply Binary64.is_nan_true_Prim2SF in Hn.
  match type of Hn with
  | Prim2SF ?a = _ => replace a with nan by (by apply Prim2SF_inj)
  end.
  apply Hnan.
Qed.

Lemma distance_not_negative_witness :
  is_nan (@calculateDistance identityEngine 0 1 0 2) = true ∨
  (0 <=? @calculateDistance identityEngine 0 1 0 2)%float = true.
Proof.
  apply (@distance_not_negative identityEngine 0 1 0 2).
  - intros x. reflexivity.
  - intros y x [->|Hy]; right; [reflexivity|].
    by apply Binary64.ltb_leb.
Defined.
